(** * gls: goroutine-local storage

    A shallow embedding of [context.go] and [id_pool.go], and the
    properties of the context manager, the identity pool and the low-level
    slot array that the specification states about them. *)

From Stdlib Require Import ZArith Lia.
From stdpp Require Import gmap strings list fin_maps numbers.

Local Open Scope Z_scope.

(** ** Machine integers *)

(** [uint32 x] is the value of [x] converted to Go's [uint32]: the
    arithmetic of [goID], [curID] and [unit] wraps modulo [2^32]. *)
Definition uint32 (x : Z) : Z := x mod 4294967296.

Definition is_uint32 (x : Z) : Prop := 0 ≤ x < 4294967296.

(** ** Values of type [interface{}]

    Keys and values of [Values] and [context] are [interface{}]. The model
    keeps the comparable values the library is used with: the nil
    interface, strings and integers. *)
Inductive iface : Type :=
  | INil : iface
  | IStr : string → iface
  | IInt : Z → iface.

#[global] Instance iface_eq_dec : EqDecision iface.
Proof. solve_decision. Defined.

Definition iface_enc (x : iface) : unit + (string + Z) :=
  match x with
  | INil => inl tt
  | IStr s => inr (inl s)
  | IInt z => inr (inr z)
  end.

Definition iface_dec (x : unit + (string + Z)) : iface :=
  match x with
  | inl _ => INil
  | inr (inl s) => IStr s
  | inr (inr z) => IInt z
  end.

#[global] Instance iface_countable : Countable iface.
Proof.
  apply (inj_countable' iface_enc iface_dec).
  intros []; reflexivity.
Defined.

#[global] Instance iface_inhabited : Inhabited iface := populate INil.

(** [type Values map[interface{}]interface{}] and
    [type context map[interface{}]interface{}]. *)
Abbreviation Values := (gmap iface iface).
Abbreviation context := (gmap iface iface).

(** ** The identity pool ([id_pool.go]) *)

Module IdPool.

(** [type idPool struct { queue *lockfree.Queue; curID uint32 }].
    The queue of [golang.design/x/lockfree] is first-in first-out:
    [Enqueue] adds at the tail, [Dequeue] takes the head and yields nil
    on an empty queue. *)
Record idPool : Type := mkPool {
  queue : list Z;
  curID : Z
}.

Definition empty : idPool := {| queue := []; curID := 0 |}.

(** [curID := atomic.AddUint32(&p.curID, 1); return curID - 1] *)
Definition newID (p : idPool) : Z * idPool :=
  let c := uint32 (curID p + 1) in
  (uint32 (c - 1), {| queue := queue p; curID := c |}).

(** [if item := p.queue.Dequeue(); item != nil { return item } else
    { return p.newID() }] *)
Definition Acquire (p : idPool) : Z * idPool :=
  match queue p with
  | item :: rest => (item, {| queue := rest; curID := curID p |})
  | [] => newID p
  end.

(** [p.queue.Enqueue(id)] *)
Definition Release (id : Z) (p : idPool) : idPool :=
  {| queue := queue p ++ [id]; curID := curID p |}.

(** Every id stored in the pool is a [uint32]. *)
Definition pool_ok (p : idPool) : Prop :=
  is_uint32 (curID p) ∧ Forall is_uint32 (queue p).

(** *** Clients of the pool

    The pool has no notion of who holds an id; the invariant of the
    specification is about its callers. [live] is the list of ids held
    by live holders, one entry per holder; [history] lists every id that
    [Acquire] has returned so far. *)
Inductive op : Type :=
  | OAcquire : op
  | ORelease : Z → op.

Record sys : Type := mkSys {
  sys_pool : idPool;
  live : list Z;
  history : list Z
}.

Definition init : sys := {| sys_pool := empty; live := []; history := [] |}.

(** Removes one occurrence of [id] from the holders. *)
Fixpoint drop_one (id : Z) (l : list Z) : list Z :=
  match l with
  | [] => []
  | x :: l' => if decide (x = id) then l' else x :: drop_one id l'
  end.

(** One operation of a client. [Release] of an id that nobody holds is a
    violation of the caller's contract: the run is not a run of the
    claim, and [step] gives [None]. *)
Definition step (s : sys) (o : op) : option sys :=
  match o with
  | OAcquire =>
      let '(id, p) := Acquire (sys_pool s) in
      Some {| sys_pool := p; live := id :: live s; history := id :: history s |}
  | ORelease id =>
      if decide (id ∈ live s)
      then Some {| sys_pool := Release id (sys_pool s); live := drop_one id (live s);
                  history := history s |}
      else None
  end.

Fixpoint run (ops : list op) (s : sys) : option sys :=
  match ops with
  | [] => Some s
  | o :: ops' =>
      match step s o with
      | Some s' => run ops' s'
      | None => None
      end
  end.

(** Number of [Acquire] operations of a run. *)
Fixpoint acquires (ops : list op) : Z :=
  match ops with
  | [] => 0
  | OAcquire :: ops' => 1 + acquires ops'
  | ORelease _ :: ops' => acquires ops'
  end.


(** The pool after [n] calls of [newID]. *)
Fixpoint newID_iter (n : nat) (p : idPool) : idPool :=
  match n with
  | O => p
  | S n' => snd (newID (newID_iter n' p))
  end.

(** The invariant of a run: [n] fresh ids were issued so far, they are the
    ids [0 .. n-1], and each of them is either waiting in the queue or
    held by exactly one holder. *)
Definition pool_inv (n : Z) (s : sys) : Prop :=
  0 ≤ n ≤ 4294967296 ∧
  curID (sys_pool s) = uint32 n ∧
  NoDup (queue (sys_pool s) ++ live s) ∧
  (∀ x, x ∈ queue (sys_pool s) ++ live s ↔ 0 ≤ x < n) ∧
  (∀ x, x ∈ history s ↔ 0 ≤ x < n).

End IdPool.

Import IdPool.

(** ** The shared state of the package ([context.go]) *)

(** Go maps are references: [state], [values] and the entries of
    [globalMaps] name map objects that several variables may share. A map
    object lives in the [heap] under a location; the nil map is the absence
    of a location. *)
Abbreviation loc := nat.
Abbreviation mgr := nat.

Definition initialMaxGoroutineCount : Z := 1024.
Definition extendUnit : Z := 128.

(** [NotEnabled = errors.New("gls not enabled for this goroutine")];
    [ENil] is the nil error. *)
Inductive error : Type :=
  | ENil : error
  | NotEnabled : error.

Inductive outcome : Type :=
  | Normal : outcome
  | Panicked : outcome.

(** What a function that may panic gives back. *)
Inductive result (A : Type) : Type :=
  | Returned : A → result A
  | Panic : result A.
Arguments Returned {A} _.
Arguments Panic {A}.

(** What a task sees when it calls the library; the trace of a run. *)
Inductive event : Type :=
  | EvGetValue : mgr → iface → iface → bool → event
  | EvGet : string → result (iface * error) → event
  | EvSet : string → result error → event.

(** The calls a task makes. A callback is the list of calls it performs;
    [CPanic] is a callback that panics at that point. *)
Inductive cmd : Type :=
  | CGetValue : mgr → iface → cmd
  | CSetValues : mgr → Values → list cmd → cmd
  | CGo : list cmd → cmd
  | CPanic : cmd
  | CSet : string → iface → cmd
  | CGet : string → cmd
  | CWrapWithGLS : list cmd → cmd.

(** A goroutine started by [Go] that has not run yet: the closure [cb]
    that [Go] built, as the chain of [mgr.SetValues(values, cb)] layers
    (outermost first) around the function given to [Go]. [values] is the
    map object that [getValues] returned. *)
Record goroutine : Type := mkGoroutine {
  wrappers : list (mgr * loc);
  body : list cmd
}.

Record world : Type := mkWorld {
  heap : gmap loc Values;
  next_loc : loc;
  (** [m.values[gid]], for every manager [m] *)
  mgr_values : gmap (mgr * Z) loc;
  next_mgr : mgr;
  (** [mgrRegistry]; a Go map, ranged over in no specified order *)
  mgrRegistry : list mgr;
  pool : idPool;
  curMaxGoroutineCount : Z;
  globalMaps : list (option loc);
  spawned : list goroutine;
  trace : list event
}.

Definition set_heap (h : gmap loc Values) (w : world) : world :=
  mkWorld h (next_loc w) (mgr_values w) (next_mgr w) (mgrRegistry w) (pool w)
    (curMaxGoroutineCount w) (globalMaps w) (spawned w) (trace w).
Definition set_mgr_values (v : gmap (mgr * Z) loc) (w : world) : world :=
  mkWorld (heap w) (next_loc w) v (next_mgr w) (mgrRegistry w) (pool w)
    (curMaxGoroutineCount w) (globalMaps w) (spawned w) (trace w).
Definition set_registry (next : mgr) (r : list mgr) (w : world) : world :=
  mkWorld (heap w) (next_loc w) (mgr_values w) next r (pool w)
    (curMaxGoroutineCount w) (globalMaps w) (spawned w) (trace w).
Definition set_pool (p : idPool) (w : world) : world :=
  mkWorld (heap w) (next_loc w) (mgr_values w) (next_mgr w) (mgrRegistry w) p
    (curMaxGoroutineCount w) (globalMaps w) (spawned w) (trace w).
Definition set_globalMaps (c : Z) (g : list (option loc)) (w : world) : world :=
  mkWorld (heap w) (next_loc w) (mgr_values w) (next_mgr w) (mgrRegistry w) (pool w)
    c g (spawned w) (trace w).
Definition set_spawned (s : list goroutine) (w : world) : world :=
  mkWorld (heap w) (next_loc w) (mgr_values w) (next_mgr w) (mgrRegistry w) (pool w)
    (curMaxGoroutineCount w) (globalMaps w) s (trace w).
Definition emit (e : event) (w : world) : world :=
  mkWorld (heap w) (next_loc w) (mgr_values w) (next_mgr w) (mgrRegistry w) (pool w)
    (curMaxGoroutineCount w) (globalMaps w) (spawned w) (trace w ++ [e]).

(** [make(...)] of a map: a new, empty map object. *)
Definition make_map (w : world) : loc * world :=
  (next_loc w,
   mkWorld (<[next_loc w := ∅]> (heap w)) (S (next_loc w)) (mgr_values w)
     (next_mgr w) (mgrRegistry w) (pool w) (curMaxGoroutineCount w)
     (globalMaps w) (spawned w) (trace w)).

(** The state of [init()]: [globalMaps] holds [initialMaxGoroutineCount]
    nil maps, no manager exists, no id was ever issued. *)
Definition init_world : world :=
  {| heap := ∅; next_loc := 0%nat; mgr_values := ∅; next_mgr := 0%nat;
     mgrRegistry := []; pool := IdPool.empty;
     curMaxGoroutineCount := initialMaxGoroutineCount;
     globalMaps := replicate (Z.to_nat initialMaxGoroutineCount) None;
     spawned := []; trace := [] |}.

(** The map object at a location, and the writes [state[key] = val] and
    [delete(state, key)] through a reference. *)
Definition deref (h : gmap loc Values) (l : loc) : Values := h !!! l.
Definition map_store (l : loc) (key val : iface) (h : gmap loc Values) : gmap loc Values :=
  <[l := <[key := val]> (deref h l)]> h.
Definition map_delete (l : loc) (key : iface) (h : gmap loc Values) : gmap loc Values :=
  <[l := delete key (deref h l)]> h.

(** ** Task identity *)

(** A task is known to the library by the identity it carries, if any. *)
Abbreviation task := (option Z).

(** Modelled from the spec: [GetGoroutineId] is not among the sources. It
    is the external [CurrentTaskIdentity() -> (id, found)]: the identity
    of the running task, when it has one. *)
Definition GetGoroutineId (t : task) : option Z := t.

Definition callback : Type := task → world → world * outcome.

(** Modelled from the spec: [EnsureGoroutineId] is not among the sources.
    It is the external [EnsureTaskIdentity(callback)]: it runs [cb] with
    the identity of the task, assigning one from the identity pool on first
    need and releasing it when that outermost wrapper exits, also when
    [cb] panics. *)
Definition EnsureGoroutineId (cb : Z → world → world * outcome) : callback :=
  fun t w =>
    match GetGoroutineId t with
    | Some gid => cb gid w
    | None =>
        let '(gid, p) := Acquire (pool w) in
        let '(w', o) := cb gid (set_pool p w) in
        (set_pool (Release gid (pool w')) w', o)
    end.

(** ** The context manager *)

(** [NewContextManager]: the manager is a fresh pointer, entered in the
    registry. Its [values] map is empty: no key of [mgr_values] names it. *)
Definition NewContextManager (w : world) : mgr * world :=
  (next_mgr w, set_registry (S (next_mgr w)) (mgrRegistry w ++ [next_mgr w]) w).

(** [delete(mgrRegistry, m)] *)
Definition Unregister (m : mgr) (w : world) : world :=
  set_registry (next_mgr w) (filter (λ m', m' ≠ m) (mgrRegistry w)) w.

(** One round of the loop [for key, new_val := range new_values] of
    [SetValues], on [(mutated_keys, mutated_vals, heap)]. *)
Definition bind_key (state : loc)
    (acc : list iface * Values * gmap loc Values) (kv : iface * iface)
    : list iface * Values * gmap loc Values :=
  let '(mutated_keys, mutated_vals, h) := acc in
  let '(key, new_val) := kv in
  (mutated_keys ++ [key],
   match deref h state !! key with
   | Some old_val => <[key := old_val]> mutated_vals
   | None => mutated_vals
   end,
   map_store state key new_val h).

(** One round of the loop [for _, key := range mutated_keys] of the
    deferred function of [SetValues]. *)
Definition restore_key (state : loc) (mutated_vals : Values)
    (h : gmap loc Values) (key : iface) : gmap loc Values :=
  match mutated_vals !! key with
  | Some val => map_store state key val h
  | None => map_delete state key h
  end.

(** What [SetValues] keeps between its two halves: [state], [found],
    [mutated_keys] and [mutated_vals]. *)
Record frame : Type := mkFrame {
  fr_state : loc;
  fr_found : bool;
  fr_keys : list iface;
  fr_vals : Values
}.

(** [SetValues] from the lookup of [m.values[gid]] to the end of the loop
    over [new_values]. *)
Definition SetValues_enter (m : mgr) (gid : Z) (new_values : Values) (w : world)
    : frame * world :=
  let '(state, found, w1) :=
    match mgr_values w !! (m, gid) with
    | Some state => (state, true, w)
    | None =>
        let '(state, w') := make_map w in
        (state, false, set_mgr_values (<[(m, gid) := state]> (mgr_values w')) w')
    end in
  let '(mutated_keys, mutated_vals, h) :=
    foldl (bind_key state) ([], ∅, heap w1) (map_to_list new_values) in
  (mkFrame state found mutated_keys mutated_vals, set_heap h w1).

(** The deferred function of [SetValues]. *)
Definition SetValues_exit (m : mgr) (gid : Z) (fr : frame) (w : world) : world :=
  if fr_found fr
  then set_heap (foldl (restore_key (fr_state fr) (fr_vals fr)) (heap w) (fr_keys fr)) w
  else set_mgr_values (delete (m, gid) (mgr_values w)) w.

Definition SetValues (m : mgr) (new_values : Values) (context_call : callback)
    : callback :=
  fun t w =>
    if (size new_values =? 0)%nat then context_call t w
    else
      EnsureGoroutineId (fun gid w =>
        let '(fr, w1) := SetValues_enter m gid new_values w in
        let '(w2, o) := context_call (Some gid) w1 in
        (SetValues_exit m gid fr w2, o)) t w.

Definition GetValue (m : mgr) (key : iface) (t : task) (w : world) : iface * bool :=
  match GetGoroutineId t with
  | None => (INil, false)
  | Some gid =>
      match mgr_values w !! (m, gid) with
      | None => (INil, false)
      | Some state =>
          match deref (heap w) state !! key with
          | Some value => (value, true)
          | None => (INil, false)
          end
      end
  end.

(** [getValues] gives the map object itself, or the nil map. *)
Definition getValues (m : mgr) (t : task) (w : world) : option loc :=
  match GetGoroutineId t with
  | None => None
  | Some gid => mgr_values w !! (m, gid)
  end.

(** [Go] up to the [go] statement: the closure is built manager by
    manager, each layer around the previous one, and handed to the
    scheduler. *)
Definition Go (cb : list cmd) (t : task) (w : world) : world :=
  let layers :=
    foldl (λ ls m,
      match getValues m t w with
      | Some values =>
          if (0 <? size (deref (heap w) values))%nat then (m, values) :: ls else ls
      | None => ls
      end) [] (mgrRegistry w) in
  set_spawned (spawned w ++ [mkGoroutine layers cb]) w.

(** Sequencing: a panic ends the run of the task. *)
Definition seq_outcome (r : world * outcome) (k : world → world * outcome)
    : world * outcome :=
  match r with
  | (w, Normal) => k w
  | (w, Panicked) => (w, Panicked)
  end.

(** ** The low-level slot array *)

(** [extend]. The arithmetic on [goID] is [uint32] arithmetic;
    [curMaxGoroutineCount] is an [int] of 64 bits, which holds the length
    of any slice, and is not wrapped. *)
Definition extend (goID : Z) (w : world) : world :=
  if uint32 (curMaxGoroutineCount w) <=? goID then
    let unit :=
      uint32 (uint32 (uint32 (goID - uint32 (curMaxGoroutineCount w)) / extendUnit + 1)
              * extendUnit) in
    set_globalMaps (curMaxGoroutineCount w + unit)
      (globalMaps w ++ replicate (Z.to_nat unit) None) w
  else w.

(** [getGLS]; the index expression [globalMaps[goID]] panics out of
    range. *)
Definition getGLS (t : task) (w : world) : result (option loc * error) :=
  match GetGoroutineId t with
  | None => Returned (None, NotEnabled)
  | Some goID =>
      match globalMaps w !! Z.to_nat goID with
      | Some c => Returned (c, ENil)
      | None => Panic
      end
  end.

(** [WrapWithGLS] up to the call of [f], when no other task takes a step
    in between; the assignment [globalMaps[goID] = context{}] panics out
    of range. The test, [extend] and the assignment are steps of their
    own: [Shared] below has them one by one, for several tasks. *)
Definition WrapWithGLS_enter (goID : Z) (w : world) : world * outcome :=
  let w1 := if uint32 (curMaxGoroutineCount w) <=? goID then extend goID w else w in
  match globalMaps w1 !! Z.to_nat goID with
  | None => (w1, Panicked)
  | Some _ =>
      let '(c, w2) := make_map w1 in
      (set_globalMaps (curMaxGoroutineCount w2)
         (<[Z.to_nat goID := Some c]> (globalMaps w2)) w2, Normal)
  end.

Definition WrapWithGLS (f : callback) : callback :=
  EnsureGoroutineId (fun goID w =>
    seq_outcome (WrapWithGLS_enter goID w) (f (Some goID))).

(** [Set]; an assignment to an entry of the nil map panics. *)
Definition Set_ (key : string) (value : iface) (t : task) (w : world)
    : result error * world :=
  match getGLS t w with
  | Panic => (Panic, w)
  | Returned (_, NotEnabled) => (Returned NotEnabled, w)
  | Returned (None, ENil) => (Panic, w)
  | Returned (Some glsMap, ENil) =>
      (Returned ENil, set_heap (map_store glsMap (IStr key) value (heap w)) w)
  end.

(** [Get]; a read of the nil map, or of a key the map has not, gives the
    zero value, the nil interface. *)
Definition Get (key : string) (t : task) (w : world) : result (iface * error) :=
  match getGLS t w with
  | Panic => Panic
  | Returned (_, NotEnabled) => Returned (INil, NotEnabled)
  | Returned (None, ENil) => Returned (INil, ENil)
  | Returned (Some glsMap, ENil) =>
      Returned (default INil (deref (heap w) glsMap !! IStr key), ENil)
  end.

(** ** Running a task *)

Definition set_outcome (r : result error * world) : world * outcome :=
  match r with
  | (Panic, w) => (w, Panicked)
  | (Returned _, w) => (w, Normal)
  end.

Fixpoint exec_cmd (c : cmd) (t : task) (w : world) {struct c} : world * outcome :=
  let exec_body :=
    fix exec_body (cs : list cmd) (t : task) (w : world) {struct cs} : world * outcome :=
      match cs with
      | [] => (w, Normal)
      | c :: cs' => seq_outcome (exec_cmd c t w) (exec_body cs' t)
      end in
  match c with
  | CGetValue m key =>
      let '(value, ok) := GetValue m key t w in
      (emit (EvGetValue m key value ok) w, Normal)
  | CSetValues m new_values cb => SetValues m new_values (exec_body cb) t w
  | CGo cb => (Go cb t w, Normal)
  | CPanic => (w, Panicked)
  | CSet key value =>
      let '(r, w') := Set_ key value t w in
      set_outcome (r, emit (EvSet key r) w')
  | CGet key =>
      let r := Get key t w in
      (emit (EvGet key r) w, match r with Panic => Panicked | Returned _ => Normal end)
  | CWrapWithGLS f => WrapWithGLS (exec_body f) t w
  end.

Fixpoint exec (cs : list cmd) (t : task) (w : world) {struct cs} : world * outcome :=
  match cs with
  | [] => (w, Normal)
  | c :: cs' => seq_outcome (exec_cmd c t w) (exec cs' t)
  end.

(** The closure that [Go] built, as the new goroutine runs it: each layer
    is [mgr.SetValues(values, cb)], and reads the map object [values] when
    it is called. *)
Fixpoint run_layers (ls : list (mgr * loc)) (cb : callback) : callback :=
  match ls with
  | [] => cb
  | (m, values) :: ls' =>
      fun t w => SetValues m (deref (heap w) values) (run_layers ls' cb) t w
  end.

(** A new goroutine has a stack of its own and no identity. *)
Definition run_goroutine (g : goroutine) (w : world) : world * outcome :=
  run_layers (wrappers g) (exec (body g)) None w.


(** Induction on the calls of a callback, with the callbacks inside. *)
Fixpoint cmd_nested_ind (P : cmd → Prop)
    (HGetValue : ∀ m key, P (CGetValue m key))
    (HSetValues : ∀ m new_values body, Forall P body → P (CSetValues m new_values body))
    (HGo : ∀ body, Forall P body → P (CGo body))
    (HPanic : P CPanic)
    (HSet : ∀ key value, P (CSet key value))
    (HGet : ∀ key, P (CGet key))
    (HWrap : ∀ f, Forall P f → P (CWrapWithGLS f))
    (c : cmd) {struct c} : P c :=
  let all :=
    fix all (cs : list cmd) : Forall P cs :=
      match cs with
      | [] => Forall_nil P
      | c' :: cs' =>
          Forall_cons P c' cs'
            (cmd_nested_ind P HGetValue HSetValues HGo HPanic HSet HGet HWrap c')
            (all cs')
      end in
  match c with
  | CGetValue m key => HGetValue m key
  | CSetValues m new_values body => HSetValues m new_values body (all body)
  | CGo body => HGo body (all body)
  | CPanic => HPanic
  | CSet key value => HSet key value
  | CGet key => HGet key
  | CWrapWithGLS f => HWrap f (all f)
  end.


(** ** Notions used to state the properties *)

(** What [GetValue] returns for the outcome of the map lookup. *)
Definition found_value (o : option iface) : iface * bool :=
  match o with
  | Some value => (value, true)
  | None => (INil, false)
  end.

(** The binding of [key] in the slot that manager [m] holds for the task,
    if the task has an identity, a slot and the key. *)
Definition lookup_value (m : mgr) (key : iface) (t : task) (w : world) : option iface :=
  match t with
  | None => None
  | Some gid =>
      match mgr_values w !! (m, gid) with
      | None => None
      | Some state => deref (heap w) state !! key
      end
  end.

(** The content of the slot that manager [m] holds for the task. *)
Definition slot (m : mgr) (t : task) (w : world) : option Values :=
  match t with
  | None => None
  | Some gid => deref (heap w) <$> mgr_values w !! (m, gid)
  end.

(** Map objects are made by [make_map] only: the locations in use are below
    [next_loc], every slot of every manager is a map object of its own,
    and none of them is a map of [globalMaps]. *)
Definition wf (w : world) : Prop :=
  (∀ a l, mgr_values w !! a = Some l → (l < next_loc w)%nat) ∧
  (∀ a b l, mgr_values w !! a = Some l → mgr_values w !! b = Some l → a = b) ∧
  (∀ i c, globalMaps w !! i = Some (Some c) → (c < next_loc w)%nat) ∧
  (∀ i c a, globalMaps w !! i = Some (Some c) → mgr_values w !! a ≠ Some c).

(** [preserved w w']: from [w] to [w'] no slot of any manager was created,
    deleted or changed. *)
Definition preserved (w w' : world) : Prop :=
  mgr_values w' = mgr_values w ∧
  (∀ a l, mgr_values w !! a = Some l → deref (heap w') l = deref (heap w) l) ∧
  (next_loc w ≤ next_loc w')%nat.

(** The identity under which [EnsureGoroutineId] runs its callback, and
    the world in which it does. *)
Definition identity_of (t : task) (w : world) : Z * world :=
  match GetGoroutineId t with
  | Some gid => (gid, w)
  | None => let '(gid, p) := Acquire (pool w) in (gid, set_pool p w)
  end.

(** What [EnsureGoroutineId] does after its callback is through. *)
Definition release_after (t : task) (gid : Z) (r : world * outcome) : world * outcome :=
  match GetGoroutineId t with
  | Some _ => r
  | None => let '(w', o) := r in (set_pool (Release gid (pool w')) w', o)
  end.

(** [point_in cb gid w fs w']: the task [gid], running the callback [cb]
    from the world [w], is in the world [w'] between two of the calls
    that [cb] makes, directly or inside the callbacks of the calls of
    [SetValues] and [WrapWithGLS] it is in. [fs] lists the manager and the
    bindings of the calls of [SetValues] (with bindings) that [cb] is
    inside of at that point, the outermost first. *)
Inductive point_in (gid : Z) : list cmd → world → list (mgr * Values) → world → Prop :=
  | point_here cb w :
      point_in gid cb w [] w
  | point_next c cb w w1 fs w' :
      exec_cmd c (Some gid) w = (w1, Normal) →
      point_in gid cb w1 fs w' →
      point_in gid (c :: cb) w fs w'
  | point_SetValues m new_values cb' cb w fs w' :
      size new_values ≠ 0%nat →
      point_in gid cb' (SetValues_enter m gid new_values w).2 fs w' →
      point_in gid (CSetValues m new_values cb' :: cb) w ((m, new_values) :: fs) w'
  | point_SetValues_empty m new_values cb' cb w fs w' :
      size new_values = 0%nat →
      point_in gid cb' w fs w' →
      point_in gid (CSetValues m new_values cb' :: cb) w fs w'
  | point_WrapWithGLS cb' cb w w1 fs w' :
      WrapWithGLS_enter gid w = (w1, Normal) →
      point_in gid cb' w1 fs w' →
      point_in gid (CWrapWithGLS cb' :: cb) w fs w'.

(** The binding of [key] in manager [m] that the scopes [fs] (outermost
    first) leave visible, when [base] is the binding outside of them: the
    innermost scope of [m] that binds [key] decides. *)
Fixpoint visible (fs : list (mgr * Values)) (m : mgr) (key : iface)
    (base : option iface) : option iface :=
  match fs with
  | [] => base
  | (m', new_values) :: fs' =>
      visible fs' m key
        (if decide (m' = m)
         then match new_values !! key with Some v => Some v | None => base end
         else base)
  end.

(** [globalMaps] has [curMaxGoroutineCount] entries, at least the initial
    ones, and a multiple of [extendUnit] of them. *)
Definition gls_ok (w : world) : Prop :=
  curMaxGoroutineCount w = Z.of_nat (length (globalMaps w)) ∧
  initialMaxGoroutineCount ≤ curMaxGoroutineCount w ∧
  curMaxGoroutineCount w mod extendUnit = 0.

(** The identity of the task, or else the ids of the pool, are
    [uint32]. *)
Definition ids_ok (t : task) (w : world) : Prop :=
  match t with
  | Some gid => is_uint32 gid
  | None => pool_ok (pool w)
  end.

(** A callback is scoped when it neither creates, deletes nor changes a
    slot of any manager for good: whatever it does to them is undone when
    it returns or panics. *)
Definition scoped (cb : callback) : Prop :=
  ∀ t w, wf w → preserved w (cb t w).1 ∧ wf (cb t w).1.

(** The world in which [SetValues], called with bindings by the task [t]
    in the world [w], calls [context_call]; the task runs it under the
    identity [(identity_of t w).1]. *)
Definition callback_world (m : mgr) (new_values : Values) (t : task) (w : world) : world :=
  (SetValues_enter m (identity_of t w).1 new_values (identity_of t w).2).2.

(** ** Worlds and callbacks of the examples *)

(** The world of a program that has made one manager, manager 0. *)
Definition one_manager : world := (NewContextManager init_world).2.

(** A task of [one_manager] that is inside [WrapWithGLS]: it has the
    identity 0 and its slot is a map. *)
Definition in_WrapWithGLS : world :=
  (WrapWithGLS_enter 0 one_manager).1.

(** A task that binds [k1], then [k2] in a scope inside, and there starts
    a goroutine with [Go] that looks both keys up. It does not wait for
    the goroutine. *)
Definition spawner : list cmd :=
  [CSetValues 0 {[IStr "k1" := IStr "a"]}
     [CSetValues 0 {[IStr "k2" := IStr "b"]}
        [CGetValue 0 (IStr "k1"); CGetValue 0 (IStr "k2");
         CGo [CGetValue 0 (IStr "k1"); CGetValue 0 (IStr "k2")]]]].

(** The nesting law of the specification, with a panic at the end of the
    outer callback. *)
Definition nesting : list cmd :=
  [CGetValue 0 (IStr "K");
   CSetValues 0 {[IStr "K" := IStr "a"]}
     [CGetValue 0 (IStr "K");
      CSetValues 0 {[IStr "K" := IStr "b"]} [CGetValue 0 (IStr "K")];
      CGetValue 0 (IStr "K");
      CPanic]].

(** The world of a task that has bound [K] in manager 0 and, in the
    callback, has just called [Go]. *)
Definition spawned_in_scope : world :=
  Go [CGetValue 0 (IStr "K")] (Some 0)
    (callback_world 0 {[IStr "K" := IStr "a"]} None one_manager).

(** The world after a task with the identity 0 has stored a value in its
    slot: the binding is still in the map of slot 0. *)
Definition slot_in_use : world := (Set_ "k" (IInt 2) (Some 0) in_WrapWithGLS).2.

(** What holds of the array and of the identities throughout: [gls_ok],
    the ids of the pool are [uint32], and so is the identity of the
    task. *)
Definition ok (t : task) (w : world) : Prop :=
  gls_ok w ∧ pool_ok (pool w) ∧
  match t with Some gid => is_uint32 gid | None => True end.

Definition keeps_ok (cb : callback) : Prop :=
  ∀ t w, ok t w → ok t (cb t w).1.

(** The worlds of a program: it starts in the state of [init()], makes
    and unregisters managers, and its goroutines, those started by [Go]
    among them, call the library. *)
Inductive reachable : world → Prop :=
  | reachable_init :
      reachable init_world
  | reachable_NewContextManager w :
      reachable w → reachable (NewContextManager w).2
  | reachable_Unregister m w :
      reachable w → reachable (Unregister m w)
  | reachable_exec calls w :
      reachable w → reachable (exec calls None w).1
  | reachable_goroutine g w :
      reachable w → g ∈ spawned w → reachable (run_goroutine g w).1.

(** ** Notions used for the further properties *)

(** The slots of the array are map objects of their own: no map is the
    slot of two identities. *)
Definition gls_distinct (w : world) : Prop :=
  (∀ i c, globalMaps w !! i = Some (Some c) → (c < next_loc w)%nat) ∧
  (∀ i j c, globalMaps w !! i = Some (Some c) →
            globalMaps w !! j = Some (Some c) → i = j).

(** [Release] of each id of a list, in turn. *)
Definition release_all (ids : list Z) (p : idPool) : idPool :=
  foldl (λ p id, Release id p) p ids.

(** [n] calls of [Acquire]: the ids returned, in the order of the calls,
    and the pool left. *)
Fixpoint acquire_n (n : nat) (p : idPool) : list Z * idPool :=
  match n with
  | O => ([], p)
  | S n' =>
      let '(id, p') := Acquire p in
      let '(ids, p'') := acquire_n n' p' in
      (id :: ids, p'')
  end.

(** A callback keeps [I] when it leaves the world in [I] if it starts in
    [I], whether it returns or panics. *)
Definition keeps (I : world → Prop) (cb : callback) : Prop :=
  ∀ t w, I w → I (cb t w).1.

(** The layers of the closure that [Go] builds for the task [t] in the
    world [w]: the loop over [mgrRegistry] of [Go]. *)
Definition layers_of (t : task) (w : world) : list (mgr * loc) :=
  foldl (λ ls m,
    match getValues m t w with
    | Some values =>
        if (0 <? size (deref (heap w) values))%nat then (m, values) :: ls else ls
    | None => ls
    end) [] (mgrRegistry w).

(** The binding of [key] in manager [m] under layers [ls]: that of the
    map of the layer of [m], or else [base]. *)
Fixpoint layer_binding (ls : list (mgr * loc)) (h : gmap loc Values) (m : mgr)
    (key : iface) (base : option iface) : option iface :=
  match ls with
  | [] => base
  | (m', values) :: ls' =>
      if decide (m' = m) then deref h values !! key
      else layer_binding ls' h m key base
  end.

(** * The slot array as shared memory

    [WrapWithGLS], [extend] and [getGLS] as several tasks run them at the
    same time, at the grain of their accesses to [globalMaps],
    [curMaxGoroutineCount] and [extendLock]. [globalMaps] is a slice: a
    reference to an array, with a length and a capacity. [extend]
    replaces it while it holds [extendLock]; the assignment
    [globalMaps[goID] = context{}] of [WrapWithGLS] and the read
    [globalMaps[goID]] of [getGLS] take no lock. *)

Module Shared.

Record slice : Type := mkSlice {
  ptr : loc;
  len : nat;
  cap : nat
}.

Record mem : Type := mkMem {
  (** the map objects *)
  maps : gmap loc Values;
  next_map : loc;
  (** the arrays of [context] that slices refer to *)
  arrays : gmap loc (list (option loc));
  next_array : loc;
  globalMaps : slice;
  curMaxGoroutineCount : Z;
  (** [extendLock] is held for writing *)
  extendLock : bool
}.

Definition set_lock (b : bool) (μ : mem) : mem :=
  mkMem (maps μ) (next_map μ) (arrays μ) (next_array μ) (globalMaps μ)
    (curMaxGoroutineCount μ) b.
Definition set_arrays (a : gmap loc (list (option loc))) (μ : mem) : mem :=
  mkMem (maps μ) (next_map μ) a (next_array μ) (globalMaps μ)
    (curMaxGoroutineCount μ) (extendLock μ).
Definition set_maps (h : gmap loc Values) (μ : mem) : mem :=
  mkMem h (next_map μ) (arrays μ) (next_array μ) (globalMaps μ)
    (curMaxGoroutineCount μ) (extendLock μ).
Definition set_globalMaps (s : slice) (c : Z) (μ : mem) : mem :=
  mkMem (maps μ) (next_map μ) (arrays μ) (next_array μ) s c (extendLock μ).

(** [init()]:
    [globalMaps = make([]context, initialMaxGoroutineCount, initialMaxGoroutineCount)] *)
Definition init_mem : mem :=
  {| maps := ∅; next_map := 0%nat;
     arrays := {[0%nat := replicate (Z.to_nat initialMaxGoroutineCount) None]};
     next_array := 1%nat;
     globalMaps := mkSlice 0 (Z.to_nat initialMaxGoroutineCount)
                     (Z.to_nat initialMaxGoroutineCount);
     curMaxGoroutineCount := initialMaxGoroutineCount;
     extendLock := false |}.

(** The elements of a slice. *)
Definition elements (s : slice) (μ : mem) : list (option loc) :=
  take (len s) (arrays μ !!! ptr s).

(** [append(s, make([]context, n, n)...)]: when the capacity of [s] has
    room for [n] more elements they are written to its array; or else
    the elements of [s] are copied to a new array, of a capacity that
    the runtime chooses ([growslice], from the old capacity and the
    length needed) and that is at least the new length. *)
Definition append_nil (growslice : nat → nat → nat) (s : slice) (n : nat) (μ : mem)
    : slice * mem :=
  let a := arrays μ !!! ptr s in
  if (len s + n <=? cap s)%nat then
    (mkSlice (ptr s) (len s + n) (cap s),
     set_arrays
       (<[ptr s := take (len s) a ++ replicate n None ++ drop (len s + n) a]> (arrays μ)) μ)
  else
    let c := Nat.max (growslice (cap s) (len s + n)%nat) (len s + n) in
    (mkSlice (next_array μ) (len s + n) c,
     mkMem (maps μ) (next_map μ)
       (<[next_array μ := take (len s) a ++ replicate (c - len s) None]> (arrays μ))
       (S (next_array μ)) (globalMaps μ) (curMaxGoroutineCount μ) (extendLock μ)).

(** Where a task is in [WrapWithGLS], before it calls [f]. *)
Inductive pc : Type :=
  (** at [extendLock.RLock()] *)
  | AtCheck : pc
  (** at the call [extend(goID)], before [extendLock.Lock()] *)
  | AtExtend : pc
  (** in [extend], [append] has returned and its result is not assigned yet *)
  | AtPublish : slice → Z → pc
  (** in [extend], after a test that failed, before the deferred [Unlock] *)
  | AtUnlock : pc
  (** at [globalMaps[goID] = context{}] *)
  | AtReset : pc
  (** in that assignment, the operands evaluated, before the store *)
  | AtStore : slice → loc → pc
  (** at [f()] *)
  | AtCall : pc
  | Panicking : pc.

(** One step of a task with the identity [goID]; [None] when the task
    waits for [extendLock] or has left the prologue. The steps are
    - [RLock], the test on [curMaxGoroutineCount], [RUnlock];
    - in [extend]: [Lock], the test and the call of [append];
    - in [extend]: the assignments to [globalMaps] and
      [curMaxGoroutineCount], and the deferred [Unlock];
    - the evaluation of [globalMaps] and [context{}];
    - the store into the array, which panics out of range. *)
Definition step (growslice : nat → nat → nat) (goID : Z) (p : pc) (μ : mem)
    : option (pc * mem) :=
  match p with
  | AtCheck =>
      if extendLock μ then None
      else Some (if uint32 (curMaxGoroutineCount μ) <=? goID then AtExtend else AtReset, μ)
  | AtExtend =>
      if extendLock μ then None
      else if uint32 (curMaxGoroutineCount μ) <=? goID then
        let unit :=
          uint32 (uint32 (uint32 (goID - uint32 (curMaxGoroutineCount μ)) / extendUnit + 1)
                  * extendUnit) in
        let '(s, μ') :=
          append_nil growslice (globalMaps μ) (Z.to_nat unit) (set_lock true μ) in
        Some (AtPublish s unit, μ')
      else Some (AtUnlock, set_lock true μ)
  | AtPublish s unit =>
      Some (AtReset, set_lock false (set_globalMaps s (curMaxGoroutineCount μ + unit) μ))
  | AtUnlock => Some (AtReset, set_lock false μ)
  | AtReset =>
      Some (AtStore (globalMaps μ) (next_map μ),
            mkMem (<[next_map μ := ∅]> (maps μ)) (S (next_map μ)) (arrays μ)
              (next_array μ) (globalMaps μ) (curMaxGoroutineCount μ) (extendLock μ))
  | AtStore s c =>
      if (Z.to_nat goID <? len s)%nat
      then Some (AtCall,
                 set_arrays (<[ptr s := <[Z.to_nat goID := Some c]> (arrays μ !!! ptr s)]>
                               (arrays μ)) μ)
      else Some (Panicking, μ)
  | AtCall => None
  | Panicking => None
  end.

(** [getGLS], [Set] and [Get] on the shared memory. *)
Definition getGLS (t : task) (μ : mem) : result (option loc * error) :=
  match GetGoroutineId t with
  | None => Returned (None, NotEnabled)
  | Some goID =>
      match elements (globalMaps μ) μ !! Z.to_nat goID with
      | Some c => Returned (c, ENil)
      | None => Panic
      end
  end.

Definition Set_ (key : string) (value : iface) (t : task) (μ : mem)
    : result error * mem :=
  match getGLS t μ with
  | Panic => (Panic, μ)
  | Returned (_, NotEnabled) => (Returned NotEnabled, μ)
  | Returned (None, ENil) => (Panic, μ)
  | Returned (Some glsMap, ENil) =>
      (Returned ENil, set_maps (map_store glsMap (IStr key) value (maps μ)) μ)
  end.

Definition Get (key : string) (t : task) (μ : mem) : result (iface * error) :=
  match getGLS t μ with
  | Panic => Panic
  | Returned (_, NotEnabled) => Returned (INil, NotEnabled)
  | Returned (None, ENil) => Returned (INil, ENil)
  | Returned (Some glsMap, ENil) =>
      Returned (default INil (deref (maps μ) glsMap !! IStr key), ENil)
  end.

(** Tasks that are in [WrapWithGLS] at the same time, each with its
    identity, and the memory they share. A schedule names the task that
    takes the next step. *)
Record state : Type := mkState {
  tasks : list (Z * pc);
  shared : mem
}.

Definition step_task (growslice : nat → nat → nat) (i : nat) (σ : state) : option state :=
  match tasks σ !! i with
  | Some (goID, p) =>
      match step growslice goID p (shared σ) with
      | Some (p', μ') => Some (mkState (<[i := (goID, p')]> (tasks σ)) μ')
      | None => None
      end
  | None => None
  end.

Fixpoint run_schedule (growslice : nat → nat → nat) (sched : list nat) (σ : state)
    : option state :=
  match sched with
  | [] => Some σ
  | i :: sched' =>
      match step_task growslice i σ with
      | Some σ' => run_schedule growslice sched' σ'
      | None => None
      end
  end.

(** A task that takes [n] steps with no step of another task in between. *)
Fixpoint steps_alone (growslice : nat → nat → nat) (n : nat) (goID : Z) (p : pc) (μ : mem)
    : pc * mem :=
  match n with
  | O => (p, μ)
  | S n' =>
      match step growslice goID p μ with
      | Some (p', μ') => steps_alone growslice n' goID p' μ'
      | None => (p, μ)
      end
  end.

(** The prologue of [WrapWithGLS] has at most five steps. *)
Definition alone (growslice : nat → nat → nat) (goID : Z) (μ : mem) : pc * mem :=
  steps_alone growslice 5 goID AtCheck μ.

(** The memory after a task with the identity 0 has run
    [WrapWithGLS(func() { Set("k", 2) })] from [init_mem], with no other
    task at work, and has released its identity. *)
Definition residue : mem :=
  (Set_ "k" (IInt 2) (Some 0) (alone (λ _ n, n) 0 init_mem).2).2.

End Shared.

(** The slice [globalMaps] refers to an array that holds its capacity. *)
Definition slice_ok (μ : Shared.mem) : Prop :=
  (Shared.len (Shared.globalMaps μ) ≤ Shared.cap (Shared.globalMaps μ))%nat ∧
  length (Shared.arrays μ !!! Shared.ptr (Shared.globalMaps μ))
  = Shared.cap (Shared.globalMaps μ).

(** [abstracts μ w]: with no task inside [WrapWithGLS]'s prologue, the
    world [w] is what the tasks see of the memory [μ]. *)
Definition abstracts (μ : Shared.mem) (w : world) : Prop :=
  Shared.elements (Shared.globalMaps μ) μ = globalMaps w ∧
  Shared.curMaxGoroutineCount μ = curMaxGoroutineCount w ∧
  Shared.maps μ = heap w ∧
  Shared.next_map μ = next_loc w ∧
  Shared.extendLock μ = false ∧
  slice_ok μ.
(** * Properties *)

(** ** Machine integers *)

Lemma uint32_range x : is_uint32 (uint32 x).
Proof. unfold is_uint32, uint32. apply Z.mod_pos_bound. lia. Qed.

Lemma uint32_id x : is_uint32 x → uint32 x = x.
Proof. unfold is_uint32, uint32. intros H. apply Z.mod_small. lia. Qed.

Lemma uint32_succ x : uint32 (uint32 x + 1) = uint32 (x + 1).
Proof. unfold uint32. apply Zplus_mod_idemp_l. Qed.

Lemma uint32_pred_succ x : uint32 (uint32 (x + 1) - 1) = uint32 x.
Proof.
  unfold uint32. rewrite Zminus_mod_idemp_l. f_equal. lia.
Qed.

Lemma uint32_period x : uint32 (x + 4294967296) = uint32 x.
Proof.
  unfold uint32. replace (x + 4294967296) with (x + 1 * 4294967296) by lia.
  apply Z_mod_plus_full.
Qed.

(** ** The identity pool *)

Section IdPoolFacts.

Lemma newID_id p : is_uint32 (curID p) → fst (newID p) = curID p.
Proof.
  intros H. unfold newID. simpl. rewrite uint32_pred_succ. by apply uint32_id.
Qed.

Lemma newID_iter_empty n : curID (newID_iter n empty) = uint32 (Z.of_nat n).
Proof.
  induction n as [|n IH]; [done|].
  cbn [newID_iter]. unfold newID. cbn [snd curID].
  rewrite IH, uint32_succ. f_equal. lia.
Qed.

Lemma newID_iter_fst n : fst (newID (newID_iter n empty)) = uint32 (Z.of_nat n).
Proof.
  rewrite newID_id; rewrite newID_iter_empty; [done|]. apply uint32_range.
Qed.

(** C10. The counter of fresh ids is a [uint32] that wraps around: the
    [n]-th call of [newID] (counting from 0) returns [n mod 2^32]. The ids
    of the first [2^32] calls are pairwise distinct. After [2^32] calls the
    counter is 0 again, the next call returns 0, the id of the very first
    call, and from then on every call repeats the id issued [2^32] calls
    before it. An id is therefore fresh only among the first [2^32] fresh
    ids. *)
Theorem newID_wraps_after_2_32 :
  (∀ n : nat,
     curID (newID_iter n empty) = Z.of_nat n mod 2 ^ 32 ∧
     fst (newID (newID_iter n empty)) = Z.of_nat n mod 2 ^ 32) ∧
  (∀ n : nat, Z.of_nat n ≤ 2 ^ 32 →
     NoDup ((λ i, fst (newID (newID_iter i empty))) <$> seq 0 n)) ∧
  curID (newID_iter (Z.to_nat (2 ^ 32)) empty) = 0 ∧
  fst (newID (newID_iter (Z.to_nat (2 ^ 32)) empty)) = fst (newID empty) ∧
  (∀ n : nat,
     fst (newID (newID_iter (n + Z.to_nat (2 ^ 32)) empty))
     = fst (newID (newID_iter n empty))).
Proof.
  change (2 ^ 32) with 4294967296.
  split; [|split; [|split; [|split]]].
  - intros n. by rewrite newID_iter_empty, newID_iter_fst.
  - intros n Hn. apply NoDup_fmap_2_strong; [|apply NoDup_seq].
    intros i j Hi%elem_of_seq Hj%elem_of_seq. rewrite !newID_iter_fst.
    rewrite !uint32_id by (unfold is_uint32; lia). lia.
  - rewrite newID_iter_empty. rewrite Z2Nat.id by lia. done.
  - rewrite newID_iter_fst. rewrite Z2Nat.id by lia. done.
  - intros n. rewrite !newID_iter_fst.
    rewrite Nat2Z.inj_add, Z2Nat.id by lia. apply uint32_period.
Qed.

(** The first three fresh ids. *)
Lemma newID_wraps_after_2_32_witness :
  NoDup ((λ i, fst (newID (newID_iter i empty))) <$> seq 0 3).
Proof.
  apply (proj1 (proj2 newID_wraps_after_2_32) 3%nat). by vm_compute.
Defined.

End IdPoolFacts.

Section IdPoolClients.

Lemma pool_inv_init : pool_inv 0 init.
Proof.
  unfold pool_inv. simpl. split_and!; try lia; try done.
  - apply NoDup_nil_2.
  - intros x. rewrite elem_of_nil. lia.
  - intros x. rewrite elem_of_nil. lia.
Qed.

Lemma drop_one_perm id l : id ∈ l → l ≡ₚ id :: drop_one id l.
Proof.
  induction l as [|x l IH]; [by intros ?%elem_of_nil|].
  intros Hin. simpl. destruct (decide (x = id)) as [->|Hne]; [done|].
  apply elem_of_cons in Hin as [->|Hin]; [done|].
  rewrite (IH Hin) at 1. apply Permutation_swap.
Qed.

Lemma release_perm id q l :
  id ∈ l → (q ++ [id]) ++ drop_one id l ≡ₚ q ++ l.
Proof.
  intros Hin. rewrite <- app_assoc. simpl.
  by rewrite <- (drop_one_perm id l Hin).
Qed.

(** What one [Acquire] does under the invariant. *)
Lemma acquire_spec n s id p' :
  pool_inv n s → (queue (sys_pool s) = [] → n < 4294967296) →
  Acquire (sys_pool s) = (id, p') →
  (id ∉ live s) ∧
  ((∃ rest, queue (sys_pool s) = id :: rest ∧ queue p' = rest ∧
            curID p' = curID (sys_pool s) ∧ id ∈ history s) ∨
   (queue (sys_pool s) = [] ∧ queue p' = [] ∧ id = curID (sys_pool s) ∧
    id = n ∧ curID p' = uint32 (n + 1) ∧ (id ∉ history s))).
Proof.
  intros (Hn & Hcur & Hnd & Hmem & Hhist) Hlt. unfold Acquire.
  destruct (queue (sys_pool s)) as [|item rest] eqn:Hq.
  - specialize (Hlt eq_refl). unfold newID. rewrite Hq. intros [= <- <-]. cbn [queue curID].
    rewrite uint32_pred_succ.
    assert (Hcn : curID (sys_pool s) = n).
    { rewrite Hcur. apply uint32_id. unfold is_uint32. lia. }
    rewrite uint32_id by (rewrite Hcn; unfold is_uint32; lia).
    split.
    + intros Hin. assert (0 ≤ curID (sys_pool s) < n) by (apply Hmem; done). lia.
    + right. split_and!; try done.
      * rewrite Hcur. apply uint32_succ.
      * intros Hin%Hhist. lia.
  - intros [= <- <-]. cbn [queue curID]. split.
    + simpl in Hnd. apply list.NoDup_cons in Hnd as [Hni _].
      intros Hin. apply Hni. apply elem_of_app. by right.
    + left. exists rest. split_and!; try done.
      apply Hhist, Hmem. simpl. apply elem_of_cons. by left.
Qed.

Lemma step_inv n s o s' :
  pool_inv n s → step s o = Some s' →
  (o = OAcquire → queue (sys_pool s) = [] → n < 4294967296) →
  ∃ n', pool_inv n' s' ∧ n ≤ n' ≤ n + acquires [o].
Proof.
  intros Hinv Hstep Hbound. destruct o as [|id]; simpl in Hstep.
  - specialize (Hbound eq_refl).
    destruct (Acquire (sys_pool s)) as [id p'] eqn:Hacq.
    injection Hstep as <-.
    destruct (acquire_spec _ _ _ _ Hinv Hbound Hacq)
      as [Hnl [(rest & Hq & Hq' & Hc & Hh) | (Hq & Hq' & Hid & Hidn & Hc & Hh)]];
      destruct Hinv as (Hn & Hcur & Hnd & Hmem & Hhist).
    + exists n. split; [|simpl; lia].
      unfold pool_inv. cbn [sys_pool live history]. rewrite Hq'.
      rewrite Hq in Hnd, Hmem.
      assert (Hperm : rest ++ id :: live s ≡ₚ (id :: rest) ++ live s).
      { simpl. by rewrite Permutation_middle. }
      split_and!; try lia.
      * by rewrite Hperm.
      * intros x. rewrite Hperm. apply Hmem.
      * intros x. rewrite elem_of_cons, <- Hhist.
        split; [intros [->|]; done|by right].
    + specialize (Hbound Hq). exists (n + 1). split; [|simpl; lia].
      unfold pool_inv. cbn [sys_pool live history]. rewrite Hq'.
      rewrite Hq in Hnd, Hmem. simpl in *.
      split_and!; try lia.
      * apply list.NoDup_cons. done.
      * intros x. rewrite elem_of_cons, Hmem. lia.
      * intros x. rewrite elem_of_cons, Hhist. lia.
  - destruct (decide (id ∈ live s)) as [Hin|]; [|done].
    injection Hstep as <-. destruct Hinv as (Hn & Hcur & Hnd & Hmem & Hhist).
    exists n. split; [|simpl; lia].
    unfold pool_inv. cbn [sys_pool live history Release queue curID].
    split_and!; try lia; try done.
    + by rewrite release_perm.
    + intros x. rewrite release_perm by done. apply Hmem.
Qed.

Lemma acquires_nonneg ops : 0 ≤ acquires ops.
Proof. induction ops as [|[|id] ops IH]; simpl; lia. Qed.

Lemma run_inv ops : ∀ n s s',
  pool_inv n s → run ops s = Some s' → n + acquires ops ≤ 4294967296 →
  ∃ n', pool_inv n' s' ∧ n ≤ n' ≤ n + acquires ops.
Proof.
  induction ops as [|o ops IH]; intros n s s' Hinv Hrun Hb.
  - injection Hrun as <-. exists n. simpl. split; [done|lia].
  - simpl in Hrun. destruct (step s o) as [s1|] eqn:Hstep; [|done].
    pose proof (acquires_nonneg ops) as Hnn.
    assert (Hcons : acquires (o :: ops) = acquires [o] + acquires ops).
    { destruct o; simpl; lia. }
    destruct (step_inv n s o s1 Hinv Hstep) as (n1 & Hinv1 & Hn1).
    { intros -> _. simpl in Hb. lia. }
    destruct (IH n1 s1 s' Hinv1 Hrun) as (n' & Hinv' & Hn'); [lia|].
    exists n'. split; [done|lia].
Qed.







(** Every id the pool hands out is a [uint32]. *)
Lemma run_uint32 ops : ∀ s s',
  is_uint32 (curID (sys_pool s)) →
  Forall is_uint32 (queue (sys_pool s) ++ live s) →
  run ops s = Some s' →
  Forall is_uint32 (live s').
Proof.
  induction ops as [|o ops IH]; intros s s' Hc Hall Hrun.
  - injection Hrun as <-. by apply Forall_app in Hall as [_ ?].
  - simpl in Hrun. destruct (step s o) as [s1|] eqn:Hstep; [|done].
    apply (IH s1 s'); [| |done]; destruct o as [|id]; simpl in Hstep.
    + unfold Acquire, newID in Hstep.
      destruct (queue (sys_pool s)); injection Hstep as <-; simpl; [apply uint32_range|done].
    + destruct (decide (id ∈ live s)); [|done]. by injection Hstep as <-.
    + unfold Acquire, newID in Hstep.
      destruct (queue (sys_pool s)) as [|item rest] eqn:Hq; injection Hstep as <-; simpl.
      * simpl in Hall. apply list.Forall_cons. split; [apply uint32_range|done].
      * simpl in Hall. apply list.Forall_cons in Hall as [Hi Hall].
        apply Forall_app in Hall as [Hr Hl]. apply Forall_app. split; [done|].
        by apply list.Forall_cons.
    + destruct (decide (id ∈ live s)) as [Hin|]; [|done]. injection Hstep as <-. simpl.
      apply Forall_app in Hall as [Hq Hl].
      rewrite <- app_assoc. apply Forall_app. split; [done|]. simpl.
      rewrite <- (drop_one_perm id (live s) Hin). done.
Qed.

(** The bound on the holders cannot be dropped: ids are [uint32], so among
    more than [2^32] holders two hold the same id, whatever the pool
    does. *)
Lemma holders_above_2_32_share_an_id (ops : list op) (s : sys) :
  run ops init = Some s →
  2 ^ 32 < Z.of_nat (length (live s)) →
  ¬ NoDup (live s).
Proof.
  intros Hrun Hlen Hnd.
  assert (Hall : Forall is_uint32 (live s)).
  { apply (run_uint32 ops init s); [done|by constructor|done]. }
  assert (Hsub : live s ⊆+ seqZ 0 4294967296).
  { apply NoDup_submseteq; [done|]. intros x Hx. apply elem_of_seqZ.
    rewrite list.Forall_forall in Hall. specialize (Hall x Hx).
    unfold is_uint32 in Hall. lia. }
  apply submseteq_length in Hsub. rewrite length_seqZ in Hsub.
  change (2 ^ 32) with 4294967296 in Hlen. lia.
Qed.



End IdPoolClients.

(** ** Map objects *)

Section MapObjects.

Implicit Types (h : gmap loc Values) (l st : loc) (key j : iface).

Lemma deref_insert h l (x : Values) : deref (<[l := x]> h) l = x.
Proof. unfold deref. apply lookup_total_insert_eq. Qed.

Lemma deref_insert_ne h l l' (x : Values) : l ≠ l' → deref (<[l := x]> h) l' = deref h l'.
Proof. unfold deref. intros. by apply lookup_total_insert_ne. Qed.

Lemma deref_map_store h st key v : deref (map_store st key v h) st = <[key := v]> (deref h st).
Proof. apply deref_insert. Qed.

Lemma deref_map_store_ne h st l key v : st ≠ l → deref (map_store st key v h) l = deref h l.
Proof. apply deref_insert_ne. Qed.

Lemma deref_map_delete h st key : deref (map_delete st key h) st = delete key (deref h st).
Proof. apply deref_insert. Qed.

Lemma deref_map_delete_ne h st l key : st ≠ l → deref (map_delete st key h) l = deref h l.
Proof. apply deref_insert_ne. Qed.

(** The loop over [new_values]: the keys are recorded, the map object gets
    the new bindings on top of its own, and [mutated_vals] gets the
    bindings that were overwritten. *)
Lemma bind_loop st (kvs : list (iface * iface)) :
  ∀ mutated_keys (mutated_vals : Values) h,
    NoDup kvs.*1 →
    ∃ mutated_vals' h',
      foldl (bind_key st) (mutated_keys, mutated_vals, h) kvs
        = (mutated_keys ++ kvs.*1, mutated_vals', h') ∧
      (∀ l, st ≠ l → deref h' l = deref h l) ∧
      deref h' st = (list_to_map kvs : Values) ∪ deref h st ∧
      (∀ j, j ∈ kvs.*1 →
            mutated_vals' !! j = (deref h st !! j) ∪ (mutated_vals !! j)) ∧
      (∀ j, j ∉ kvs.*1 → mutated_vals' !! j = mutated_vals !! j).
Proof.
  induction kvs as [|[k v] kvs IH]; intros mk mv h Hnd.
  - exists mv, h. simpl. rewrite app_nil_r. split_and!.
    + done.
    + done.
    + by rewrite (left_id_L ∅ (∪)).
    + by intros j ?%elem_of_nil.
    + done.
  - simpl in Hnd. apply list.NoDup_cons in Hnd as [Hk Hnd].
    cbn [foldl bind_key].
    destruct (IH (mk ++ [k])
                (match deref h st !! k with
                 | Some old_val => <[k := old_val]> mv
                 | None => mv
                 end) (map_store st k v h) Hnd)
      as (mv' & h' & Heq & Hother & Hst & Hmv & Hmv').
    exists mv', h'. split_and!.
    + rewrite Heq. by rewrite <- app_assoc.
    + intros l Hl. rewrite Hother by done. by apply deref_map_store_ne.
    + rewrite Hst, deref_map_store. simpl.
      apply map_eq. intros j. rewrite !lookup_union.
      destruct (decide (k = j)) as [<-|Hne].
      * rewrite !lookup_insert_eq.
        rewrite (not_elem_of_list_to_map_1 _ k) by done.
        by destruct (deref h st !! k).
      * by rewrite !lookup_insert_ne.
    + intros j Hj. simpl in Hj. apply elem_of_cons in Hj as [->|Hj].
      * rewrite Hmv' by done.
        destruct (deref h st !! k) as [old|]; [|by destruct (mv !! k)].
        rewrite lookup_insert_eq. by destruct (mv !! k).
      * assert (k ≠ j) by (intros ->; done).
        rewrite Hmv by done. rewrite deref_map_store, lookup_insert_ne by done.
        destruct (deref h st !! k); [|done].
        by rewrite lookup_insert_ne.
    + intros j Hj. simpl in Hj. apply not_elem_of_cons in Hj as [Hne Hj].
      rewrite Hmv' by done.
      destruct (deref h st !! k); [|done].
      by rewrite lookup_insert_ne.
Qed.

(** The loop over [mutated_keys]: each of the keys gets the binding that
    [mutated_vals] has for it, or none. *)
Lemma restore_loop st (mutated_vals : Values) (keys : list iface) :
  ∀ h,
    (∀ l, st ≠ l →
       deref (foldl (restore_key st mutated_vals) h keys) l = deref h l) ∧
    (∀ j, deref (foldl (restore_key st mutated_vals) h keys) st !! j
          = if decide (j ∈ keys) then mutated_vals !! j else deref h st !! j).
Proof.
  induction keys as [|k keys IH]; intros h.
  - split; [done|]. intros j. simpl. destruct (decide (j ∈ [])) as [Hj|]; [|done].
    by apply elem_of_nil in Hj.
  - cbn [foldl]. destruct (IH (restore_key st mutated_vals h k)) as [Hother Hst].
    assert (Hk : ∀ j, deref (restore_key st mutated_vals h k) st !! j
                      = if decide (j = k) then mutated_vals !! j else deref h st !! j).
    { intros j. unfold restore_key.
      destruct (mutated_vals !! k) as [val|] eqn:Hmv.
      - rewrite deref_map_store. destruct (decide (j = k)) as [->|Hj].
        + by rewrite lookup_insert_eq.
        + by rewrite lookup_insert_ne.
      - rewrite deref_map_delete. destruct (decide (j = k)) as [->|Hj].
        + by rewrite lookup_delete_eq.
        + by rewrite lookup_delete_ne. }
    split.
    + intros l Hl. rewrite Hother by done. unfold restore_key.
      destruct (mutated_vals !! k).
      * by apply deref_map_store_ne.
      * by apply deref_map_delete_ne.
    + intros j. rewrite Hst, Hk. clear IH Hother Hst Hk.
      destruct (decide (j ∈ keys)) as [Hin|Hin], (decide (j = k)) as [Heq|Hne],
               (decide (j ∈ k :: keys)) as [Hin'|Hin'];
        try done; try (subst j; done);
        rewrite elem_of_cons in Hin'; tauto.
Qed.

End MapObjects.

(** ** Scopes of [SetValues] *)

Section Scopes.

Implicit Types (w : world) (m : mgr) (gid : Z) (t : task).

Lemma map_to_list_key (new_values : Values) j :
  j ∈ (map_to_list new_values).*1 ↔ is_Some (new_values !! j).
Proof.
  rewrite list_elem_of_fmap. split.
  - intros ([k v] & -> & Hin). apply elem_of_map_to_list in Hin. by exists v.
  - intros [v Hv]. exists (j, v). split; [done|]. by apply elem_of_map_to_list.
Qed.

(** [SetValues_enter] when the task has a slot in the manager. *)
Lemma SetValues_enter_found m gid new_values w st :
  mgr_values w !! (m, gid) = Some st →
  ∃ mutated_vals h',
    SetValues_enter m gid new_values w
      = (mkFrame st true (map_to_list new_values).*1 mutated_vals, set_heap h' w) ∧
    (∀ l, st ≠ l → deref h' l = deref (heap w) l) ∧
    deref h' st = new_values ∪ deref (heap w) st ∧
    (∀ j, is_Some (new_values !! j) → mutated_vals !! j = deref (heap w) st !! j).
Proof.
  intros Hst. unfold SetValues_enter. rewrite Hst.
  destruct (bind_loop st (map_to_list new_values) [] ∅ (heap w))
    as (mv & h' & Heq & Hother & Hnew & Hmv & _).
  { apply NoDup_fst_map_to_list. }
  rewrite Heq. exists mv, h'. split_and!; try done.
  - by rewrite Hnew, list_to_map_to_list.
  - intros j Hj. rewrite Hmv by (by apply map_to_list_key).
    rewrite lookup_empty. by destruct (deref (heap w) st !! j).
Qed.

(** [SetValues_enter] when the task has no slot in the manager. *)
Lemma SetValues_enter_fresh m gid new_values w :
  mgr_values w !! (m, gid) = None →
  ∃ mutated_vals h',
    SetValues_enter m gid new_values w
      = (mkFrame (next_loc w) false (map_to_list new_values).*1 mutated_vals,
         set_heap h'
           (set_mgr_values (<[(m, gid) := next_loc w]> (mgr_values w)) (make_map w).2)) ∧
    (∀ l, next_loc w ≠ l → deref h' l = deref (heap w) l) ∧
    deref h' (next_loc w) = new_values.
Proof.
  intros Hst. unfold SetValues_enter. rewrite Hst. cbn [make_map].
  cbn [set_mgr_values heap mgr_values snd].
  destruct (bind_loop (next_loc w) (map_to_list new_values) [] ∅
              (<[next_loc w := ∅]> (heap w)))
    as (mv & h' & Heq & Hother & Hnew & _).
  { apply NoDup_fst_map_to_list. }
  rewrite Heq. exists mv, h'. split_and!; try done.
  - intros l Hl. rewrite Hother by done. by apply deref_insert_ne.
  - rewrite Hnew, list_to_map_to_list, deref_insert. by rewrite (right_id_L ∅ (∪)).
Qed.

Lemma preserved_refl w : preserved w w.
Proof. by split_and!. Qed.

Lemma preserved_trans w1 w2 w3 : preserved w1 w2 → preserved w2 w3 → preserved w1 w3.
Proof.
  intros (Hv1 & Hh1 & Hn1) (Hv2 & Hh2 & Hn2). split_and!.
  - congruence.
  - intros a l Hl. rewrite (Hh2 a l) by (by rewrite Hv1). by apply Hh1 with a.
  - lia.
Qed.

(** Well-formedness looks at the slots, the array and [next_loc] only. *)
Lemma wf_same w w' :
  mgr_values w' = mgr_values w → globalMaps w' = globalMaps w →
  (next_loc w ≤ next_loc w')%nat → wf w → wf w'.
Proof.
  intros Hv Hg Hn (H1 & H2 & H3 & H4). unfold wf. rewrite Hv, Hg. split_and!.
  - intros a l Hl. specialize (H1 a l Hl). lia.
  - done.
  - intros i c Hc. specialize (H3 i c Hc). lia.
  - done.
Qed.

Lemma SetValues_enter_wf m gid new_values w :
  wf w → wf (SetValues_enter m gid new_values w).2.
Proof.
  intros Hwf. destruct (mgr_values w !! (m, gid)) as [st|] eqn:Hst.
  - destruct (SetValues_enter_found m gid new_values w st Hst) as (mv & h' & -> & _).
    by apply (wf_same w).
  - destruct (SetValues_enter_fresh m gid new_values w Hst) as (mv & h' & -> & _).
    destruct Hwf as (H1 & H2 & H3 & H4). unfold wf. simpl. split_and!.
    + intros a l. destruct (decide (a = (m, gid))) as [->|Hne].
      * rewrite lookup_insert_eq. intros [= Heq]. lia.
      * rewrite lookup_insert_ne by done. intros Hl. specialize (H1 a l Hl). lia.
    + intros a b l.
      destruct (decide (a = (m, gid))) as [->|Ha], (decide (b = (m, gid))) as [->|Hb];
        rewrite ?lookup_insert_eq, ?lookup_insert_ne by done; try done.
      * intros [= Heq] Hl. specialize (H1 b _ Hl). lia.
      * intros Hl [= Heq]. specialize (H1 a _ Hl). lia.
      * apply H2.
    + intros i c Hc. specialize (H3 i c Hc). lia.
    + intros i c a Hc. destruct (decide (a = (m, gid))) as [->|Ha].
      * rewrite lookup_insert_eq. intros [= Heq]. specialize (H3 i _ Hc). lia.
      * rewrite lookup_insert_ne by done. by apply H4 with i.
Qed.

Lemma SetValues_exit_wf m gid fr w : wf w → wf (SetValues_exit m gid fr w).
Proof.
  intros Hwf. unfold SetValues_exit. destruct (fr_found fr).
  - by apply (wf_same w).
  - destruct Hwf as (H1 & H2 & H3 & H4). unfold wf. simpl. split_and!.
    + intros a l [_ Hl]%lookup_delete_Some. by apply H1 with a.
    + intros a b l [_ Ha]%lookup_delete_Some [_ Hb]%lookup_delete_Some. by apply H2 with l.
    + done.
    + intros i c a Hc [_ Ha]%lookup_delete_Some. by apply H4 with i c a.
Qed.

(** A scope of [SetValues] around anything that preserves the slots
    preserves the slots: the deferred function undoes what the loop over
    [new_values] did. *)
Lemma SetValues_scope m gid new_values w fr w1 w2 :
  wf w →
  SetValues_enter m gid new_values w = (fr, w1) →
  preserved w1 w2 →
  preserved w (SetValues_exit m gid fr w2).
Proof.
  intros Hwf Henter (Hv & Hh & Hn).
  destruct (mgr_values w !! (m, gid)) as [st|] eqn:Hst.
  - destruct (SetValues_enter_found m gid new_values w st Hst)
      as (mv & h' & Heq & Hother & Hnew & Hmv).
    rewrite Henter in Heq. injection Heq as -> ->.
    unfold SetValues_exit. cbn [fr_found fr_state fr_vals fr_keys].
    simpl in Hv, Hh, Hn.
    destruct (restore_loop st mv (map_to_list new_values).*1 (heap w2)) as [Ro Rs].
    split_and!; simpl; [done| |done].
    intros a l Hl. destruct (decide (st = l)) as [<-|Hne].
    + apply map_eq. intros j. rewrite Rs.
      destruct (decide (j ∈ (map_to_list new_values).*1)) as [Hj|Hj].
      * apply Hmv. by apply map_to_list_key.
      * rewrite (Hh (m, gid) st Hst), Hnew, lookup_union.
        rewrite map_to_list_key in Hj. apply eq_None_not_Some in Hj. rewrite Hj.
        by destruct (deref (heap w) st !! j).
    + rewrite Ro by done. rewrite (Hh a l Hl). by apply Hother.
  - destruct (SetValues_enter_fresh m gid new_values w Hst)
      as (mv & h' & Heq & Hother & Hnew).
    rewrite Henter in Heq. injection Heq as -> ->.
    unfold SetValues_exit. cbn [fr_found]. simpl in Hv, Hh, Hn.
    split_and!; simpl.
    + rewrite Hv. by apply delete_insert_id.
    + intros a l Hl. destruct Hwf as (H1 & _).
      assert (a ≠ (m, gid)) by congruence.
      rewrite (Hh a l) by (by rewrite lookup_insert_ne).
      apply Hother. specialize (H1 a l Hl). lia.
    + lia.
Qed.

End Scopes.

(** ** Every call leaves the slots of the managers as it found them *)

Section Frame.

Implicit Types (w : world) (m : mgr) (gid : Z) (t : task) (cb : callback).

Lemma EnsureGoroutineId_scoped (f : Z → world → world * outcome) :
  (∀ gid w, wf w → preserved w (f gid w).1 ∧ wf (f gid w).1) →
  scoped (EnsureGoroutineId f).
Proof.
  intros Hf t w Hwf. unfold EnsureGoroutineId, GetGoroutineId.
  destruct t as [gid|]; [by apply Hf|].
  destruct (Acquire (pool w)) as [gid p].
  destruct (Hf gid (set_pool p w)) as [Hp Hwf']; [by apply (wf_same w)|].
  destruct (f gid (set_pool p w)) as [w' o]. simpl in *.
  split; [done|]. by apply (wf_same w').
Qed.

Lemma SetValues_scoped m new_values cb : scoped cb → scoped (SetValues m new_values cb).
Proof.
  intros Hcb t w Hwf. unfold SetValues.
  destruct (size new_values =? 0)%nat; [by apply Hcb|].
  revert t w Hwf. apply EnsureGoroutineId_scoped. intros gid w Hwf.
  pose proof (SetValues_enter_wf m gid new_values w Hwf) as Hwf1.
  destruct (SetValues_enter m gid new_values w) as [fr w1] eqn:Henter.
  simpl in Hwf1. destruct (Hcb (Some gid) w1 Hwf1) as [Hp Hwf2].
  destruct (cb (Some gid) w1) as [w2 o]. simpl in *. split.
  - by eapply SetValues_scope.
  - by apply SetValues_exit_wf.
Qed.

Lemma extend_fields goID w :
  ∃ n, extend goID w
       = set_globalMaps (curMaxGoroutineCount w + Z.of_nat n)
           (globalMaps w ++ replicate n None) w
         ∨ extend goID w = w.
Proof.
  unfold extend. destruct (uint32 (curMaxGoroutineCount w) <=? goID) eqn:Hle.
  - eexists. left. rewrite Z2Nat.id; [done|].
    apply uint32_range.
  - exists 0%nat. by right.
Qed.

Lemma lookup_app_replicate_None {A} (l : list (option A)) n i c :
  (l ++ replicate n None) !! i = Some (Some c) → l !! i = Some (Some c).
Proof.
  intros H. apply lookup_app_Some in H as [H|[_ H]]; [done|].
  apply lookup_replicate in H as [? _]. done.
Qed.

Lemma extend_preserved goID w : wf w → preserved w (extend goID w) ∧ wf (extend goID w).
Proof.
  intros Hwf. destruct (extend_fields goID w) as (n & [-> | ->]);
    [|split; [apply preserved_refl|done]].
  split; [by split_and!|].
  destruct Hwf as (H1 & H2 & H3 & H4). unfold wf. simpl. split_and!; try done.
  - intros i c Hc%lookup_app_replicate_None. by apply H3 with i.
  - intros i c a Hc%lookup_app_replicate_None. by apply H4 with i.
Qed.

Lemma WrapWithGLS_enter_preserved goID w :
  wf w →
  preserved w (WrapWithGLS_enter goID w).1 ∧ wf (WrapWithGLS_enter goID w).1.
Proof.
  intros Hwf. unfold WrapWithGLS_enter.
  set (w1 := if uint32 (curMaxGoroutineCount w) <=? goID then extend goID w else w).
  assert (Hw1 : preserved w w1 ∧ wf w1).
  { unfold w1. destruct (uint32 (curMaxGoroutineCount w) <=? goID).
    - by apply extend_preserved.
    - split; [apply preserved_refl|done]. }
  destruct (globalMaps w1 !! Z.to_nat goID) as [old|]; [|done].
  destruct Hw1 as [Hp (H1 & H2 & H3 & H4)].
  cbn [make_map fst]. split.
  - apply (preserved_trans _ w1); [done|]. split_and!; simpl; [done| |lia].
    intros a l Hl. apply deref_insert_ne. specialize (H1 a l Hl). lia.
  - unfold wf. simpl. split_and!.
    + intros a l Hl. specialize (H1 a l Hl). lia.
    + done.
    + intros i c Hc. destruct (decide (i = Z.to_nat goID)) as [->|Hne].
      * apply list_lookup_insert_Some in Hc as [(_ & [= <-] & _)|[? _]]; [lia|done].
      * rewrite list_lookup_insert_ne in Hc by done. specialize (H3 i c Hc). lia.
    + intros i c a Hc Ha. specialize (H1 a c Ha).
      destruct (decide (i = Z.to_nat goID)) as [->|Hne].
      * apply list_lookup_insert_Some in Hc as [(_ & [= Heq] & _)|[? _]]; [lia|done].
      * rewrite list_lookup_insert_ne in Hc by done. by apply (H4 i c a).
Qed.

Lemma WrapWithGLS_scoped cb : scoped cb → scoped (WrapWithGLS cb).
Proof.
  intros Hcb. apply EnsureGoroutineId_scoped. intros goID w Hwf.
  destruct (WrapWithGLS_enter_preserved goID w Hwf) as [Hp Hwf'].
  destruct (WrapWithGLS_enter goID w) as [w' [|]]; simpl in *; [|done].
  destruct (Hcb (Some goID) w' Hwf') as [Hp' Hwf''].
  split; [by apply (preserved_trans _ w')|done].
Qed.

Lemma Set_preserved key value t w :
  wf w → preserved w (Set_ key value t w).2 ∧ wf (Set_ key value t w).2.
Proof.
  intros Hwf. unfold Set_, getGLS, GetGoroutineId.
  destruct t as [goID|]; [|split; [apply preserved_refl|done]].
  destruct (globalMaps w !! Z.to_nat goID) as [[c|]|] eqn:Hc;
    simpl; try (split; [apply preserved_refl|done]).
  split; [|by apply (wf_same w)].
  split_and!; simpl; [done| |done].
  intros a l Hl. apply deref_map_store_ne. intros ->.
  destruct Hwf as (_ & _ & _ & H4). by apply (H4 _ _ a Hc).
Qed.

Lemma emit_preserved e w : wf w → preserved w (emit e w) ∧ wf (emit e w).
Proof. intros Hwf. split; [by split_and!|by apply (wf_same w)]. Qed.

Lemma Go_preserved (body : list cmd) t w : wf w → preserved w (Go body t w) ∧ wf (Go body t w).
Proof. intros Hwf. split; [by split_and!|by apply (wf_same w)]. Qed.

Lemma exec_scoped_of (cs : list cmd) :
  Forall (λ c, scoped (exec_cmd c)) cs → scoped (exec cs).
Proof.
  induction 1 as [|c cs Hc _ IH]; intros t w Hwf.
  - split; [apply preserved_refl|done].
  - cbn [exec]. destruct (Hc t w Hwf) as [Hp Hwf1].
    destruct (exec_cmd c t w) as [w1 [|]]; simpl in *; [|done].
    destruct (IH t w1 Hwf1) as [Hp' Hwf2].
    split; [by apply (preserved_trans _ w1)|done].
Qed.

Lemma exec_cmd_scoped (c : cmd) : scoped (exec_cmd c).
Proof.
  induction c as [m key|m new_values cb IH|cb IH| |key value|key|f IH]
    using cmd_nested_ind.
  - intros t w Hwf. cbn [exec_cmd]. destruct (GetValue m key t w). by apply emit_preserved.
  - change (exec_cmd (CSetValues m new_values cb)) with (SetValues m new_values (exec cb)).
    by apply SetValues_scoped, exec_scoped_of.
  - intros t w Hwf. by apply Go_preserved.
  - intros t w Hwf. split; [apply preserved_refl|done].
  - intros t w Hwf. cbn [exec_cmd].
    destruct (Set_preserved key value t w Hwf) as [Hp Hwf'].
    destruct (Set_ key value t w) as [r w']. simpl in Hp, Hwf'.
    destruct (emit_preserved (EvSet key r) w' Hwf') as [Hp' Hwf''].
    assert (Heq : (set_outcome (r, emit (EvSet key r) w')).1 = emit (EvSet key r) w')
      by (by destruct r).
    rewrite Heq. split; [by apply (preserved_trans _ w')|done].
  - intros t w Hwf. by apply emit_preserved.
  - change (exec_cmd (CWrapWithGLS f)) with (WrapWithGLS (exec f)).
    by apply WrapWithGLS_scoped, exec_scoped_of.
Qed.

Lemma exec_scoped (cs : list cmd) : scoped (exec cs).
Proof. apply exec_scoped_of, Forall_forall. intros c _. apply exec_cmd_scoped. Qed.

(** A goroutine started by [Go] leaves the slots as it found them, too:
    the layers around its function are calls of [SetValues]. *)
Lemma run_layers_scoped ls cb : scoped cb → scoped (run_layers ls cb).
Proof.
  intros Hcb. induction ls as [|[m values] ls IH]; [done|].
  intros t w Hwf. cbn [run_layers]. by apply SetValues_scoped.
Qed.

Lemma run_goroutine_preserved g w :
  wf w → preserved w (run_goroutine g w).1 ∧ wf (run_goroutine g w).1.
Proof. intros Hwf. by apply run_layers_scoped; [apply exec_scoped|]. Qed.

End Frame.

(** ** The context manager *)

Section ContextManager.

Implicit Types (w : world) (m : mgr) (gid : Z) (t : task).

Lemma GetValue_lookup m key t w :
  GetValue m key t w = found_value (lookup_value m key t w).
Proof.
  unfold GetValue, lookup_value, GetGoroutineId. destruct t as [gid|]; [|done].
  by destruct (mgr_values w !! (m, gid)).
Qed.

Lemma preserved_slot w w' m t : preserved w w' → slot m t w' = slot m t w.
Proof.
  intros (Hv & Hh & _). unfold slot. destruct t as [gid|]; [|done].
  rewrite Hv. destruct (mgr_values w !! (m, gid)) as [l|] eqn:Hl; [|done].
  simpl. f_equal. by apply Hh with (m, gid).
Qed.

Lemma preserved_lookup w w' m key t :
  preserved w w' → lookup_value m key t w' = lookup_value m key t w.
Proof.
  intros (Hv & Hh & _). unfold lookup_value. destruct t as [gid|]; [|done].
  rewrite Hv. destruct (mgr_values w !! (m, gid)) as [l|] eqn:Hl; [|done].
  by rewrite (Hh (m, gid) l).
Qed.

Lemma identity_of_wf t w : wf w → wf (identity_of t w).2.
Proof.
  intros Hwf. unfold identity_of, GetGoroutineId. destruct t; [done|].
  destruct (Acquire (pool w)). by apply (wf_same w).
Qed.

(** How [SetValues] runs its callback. *)
Lemma SetValues_unfold m new_values (cb : callback) t w :
  size new_values ≠ 0%nat →
  SetValues m new_values cb t w
  = release_after t (identity_of t w).1
      (let '(w2, o) := cb (Some (identity_of t w).1) (callback_world m new_values t w) in
       (SetValues_exit m (identity_of t w).1
          (SetValues_enter m (identity_of t w).1 new_values (identity_of t w).2).1 w2, o)).
Proof.
  intros Hsz. unfold SetValues, callback_world.
  apply Nat.eqb_neq in Hsz. rewrite Hsz.
  unfold EnsureGoroutineId, release_after, identity_of, GetGoroutineId.
  destruct t as [gid|]; simpl.
  - by destruct (SetValues_enter m gid new_values w).
  - destruct (Acquire (pool w)) as [gid p]. simpl.
    by destruct (SetValues_enter m gid new_values (set_pool p w)).
Qed.

(** C9. [SetValues] with no bindings is its callback: the effect and the
    outcome of the call are those of one run of the callback by the caller
    itself, whatever the callback is. Nothing else happens: with a
    callback that does nothing, the world is left as it is, the pool of
    identities and the slots of the managers included. *)
Theorem SetValues_empty_is_callback m (cb : callback) (calls : list cmd) t w :
  SetValues m ∅ cb t w = cb t w ∧
  exec_cmd (CSetValues m ∅ calls) t w = exec calls t w ∧
  exec_cmd (CSetValues m ∅ []) t w = (w, Normal).
Proof. done. Qed.

(** The bindings that the task sees right after [SetValues_enter]. *)
Lemma SetValues_enter_lookup m gid new_values w m' key :
  wf w →
  lookup_value m' key (Some gid) (SetValues_enter m gid new_values w).2
  = if decide (m = m')
    then match new_values !! key with
         | Some v => Some v
         | None => lookup_value m' key (Some gid) w
         end
    else lookup_value m' key (Some gid) w.
Proof.
  intros (H1 & H2 & _). unfold lookup_value.
  destruct (mgr_values w !! (m, gid)) as [st|] eqn:Hst.
  - destruct (SetValues_enter_found m gid new_values w st Hst)
      as (mv & h' & -> & Hother & Hnew & _). simpl.
    destruct (decide (m = m')) as [<-|Hne].
    + rewrite Hst, Hnew, lookup_union.
      destruct (new_values !! key), (deref (heap w) st !! key); done.
    + destruct (mgr_values w !! (m', gid)) as [l|] eqn:Hl; [|done].
      rewrite Hother; [done|]. intros <-.
      assert ((m, gid) = (m', gid)) by (by apply H2 with st). congruence.
  - destruct (SetValues_enter_fresh m gid new_values w Hst)
      as (mv & h' & -> & Hother & Hnew). simpl.
    destruct (decide (m = m')) as [<-|Hne].
    + rewrite lookup_insert_eq, Hnew, Hst. by destruct (new_values !! key).
    + rewrite lookup_insert_ne by congruence.
      destruct (mgr_values w !! (m', gid)) as [l|] eqn:Hl; [|done].
      rewrite Hother; [done|]. specialize (H1 _ _ Hl). lia.
Qed.

(** At every point of a callback, the task sees the bindings of the
    innermost scopes it is in. *)
Lemma point_in_visible gid (cb : list cmd) w fs w' :
  point_in gid cb w fs w' →
  wf w →
  wf w' ∧
  ∀ m key, lookup_value m key (Some gid) w'
           = visible fs m key (lookup_value m key (Some gid) w).
Proof.
  induction 1 as [cb w|c cb w w1 fs w' Hexec _ IH|m new_values cb' cb w fs w' Hsz _ IH
                 |m new_values cb' cb w fs w' Hsz _ IH|cb' cb w w1 fs w' Henter _ IH];
    intros Hwf.
  - done.
  - destruct (exec_cmd_scoped c (Some gid) w Hwf) as [Hp Hwf1].
    rewrite Hexec in Hp, Hwf1. simpl in Hp, Hwf1.
    destruct (IH Hwf1) as [Hwf' Hv]. split; [done|].
    intros m key. rewrite Hv. f_equal. by apply preserved_lookup.
  - destruct (IH (SetValues_enter_wf m gid new_values w Hwf)) as [Hwf' Hv].
    split; [done|]. intros m' key. rewrite Hv. cbn [visible]. f_equal.
    by apply SetValues_enter_lookup.
  - by apply IH.
  - destruct (WrapWithGLS_enter_preserved gid w Hwf) as [Hp Hwf1].
    rewrite Henter in Hp, Hwf1. simpl in Hp, Hwf1.
    destruct (IH Hwf1) as [Hwf' Hv]. split; [done|].
    intros m key. rewrite Hv. f_equal. by apply preserved_lookup.
Qed.

(** The slot that [SetValues] runs its callback with. *)
Lemma callback_world_slot m new_values t w :
  is_Some (mgr_values (callback_world m new_values t w) !! (m, (identity_of t w).1)).
Proof.
  unfold callback_world.
  destruct (mgr_values (identity_of t w).2 !! (m, (identity_of t w).1)) as [st|] eqn:Hst.
  - destruct (SetValues_enter_found m _ new_values _ st Hst) as (mv & h' & -> & _).
    by exists st.
  - destruct (SetValues_enter_fresh m _ new_values _ Hst) as (mv & h' & -> & _).
    simpl. rewrite lookup_insert_eq. by eexists.
Qed.

(** C1. When [M.SetValues(B, C)] is through, whether [C] returned or
    panicked, [M.GetValue(k)] gives for every key [k] (those of [B] among
    them) what it gave just before the call, the slot of the task in [M]
    holds the bindings it held before, and no slot of any task in any
    manager was created, deleted or changed. If the task had no slot in
    [M] before the call, it has none afterwards, though it had one while
    [C] ran. Restoration is in stack order: wherever the task is while it
    runs [C], to any depth of scopes, each call it makes there leaves the
    slots as they were when that call was made. *)
Theorem SetValues_restores_slot m new_values (cb : list cmd) t w :
  wf w →
  ∀ w' o, exec_cmd (CSetValues m new_values cb) t w = (w', o) →
    (∀ key, GetValue m key t w' = GetValue m key t w) ∧
    slot m t w' = slot m t w ∧
    preserved w w' ∧
    (∀ gid, mgr_values w !! (m, gid) = None → mgr_values w' !! (m, gid) = None) ∧
    (size new_values ≠ 0%nat →
     is_Some (mgr_values (callback_world m new_values t w) !! (m, (identity_of t w).1)) ∧
     ∀ fs w1 c w2 o',
       point_in (identity_of t w).1 cb (callback_world m new_values t w) fs w1 →
       exec_cmd c (Some (identity_of t w).1) w1 = (w2, o') →
       preserved w1 w2).
Proof.
  intros Hwf w' o Hexec.
  destruct (exec_cmd_scoped (CSetValues m new_values cb) t w Hwf) as [Hp _].
  rewrite Hexec in Hp. simpl in Hp. split_and!.
  - intros key. rewrite !GetValue_lookup. f_equal. by apply preserved_lookup.
  - by apply preserved_slot.
  - done.
  - intros gid. destruct Hp as (-> & _). done.
  - intros _. split; [apply callback_world_slot|].
    intros fs w1 c w2 o' Hpoint Hc.
    pose proof (identity_of_wf t w Hwf) as Hwf0.
    destruct (point_in_visible _ _ _ _ _ Hpoint) as [Hwf1 _].
    { by apply SetValues_enter_wf. }
    destruct (exec_cmd_scoped c (Some (identity_of t w).1) w1 Hwf1) as [Hp1 _].
    by rewrite Hc in Hp1.
Qed.

Lemma visible_Some_unbound fs m key value :
  (∀ new_values, (m, new_values) ∈ fs → new_values !! key = None) →
  visible fs m key (Some value) = Some value.
Proof.
  revert value. induction fs as [|[m' B'] fs IH]; intros value Hfs; [done|].
  cbn [visible]. destruct (decide (m' = m)) as [->|Hne].
  - rewrite (Hfs B') by (by left). apply IH. intros B Hin. apply Hfs. by right.
  - apply IH. intros B Hin. apply Hfs. by right.
Qed.

Lemma visible_innermost fs m new_values key value base :
  new_values !! key = Some value →
  visible (fs ++ [(m, new_values)]) m key base = Some value.
Proof.
  intros HB. revert base. induction fs as [|[m' B'] fs IH]; intros base.
  - cbn [app visible]. rewrite decide_True by done. by rewrite HB.
  - cbn [app visible]. apply IH.
Qed.

(** C2. Take a call [M.SetValues(B, C)] with bindings, made by the task
    [t] in the world [w]. The call runs [C] from the world
    [callback_world M B t w], and wherever the task is while it runs [C]
    (between two calls of [C], or of the callback of a call of
    [SetValues] or [WrapWithGLS] that [C] is in, to any depth, after any
    number of calls that have returned), [M.GetValue(k)] is found for every
    key [k] of [B]: it is the binding of the innermost scope of [M] that
    binds [k]. So it is [(B[k], true)] as long as no scope entered since
    rebinds [k] in [M], in particular once such a scope has returned, and
    inside a scope that rebinds [k] it is the binding of that scope. *)
Theorem SetValues_callback_sees_bindings m new_values (cb : list cmd) t w
    fs w' key value :
  wf w →
  size new_values ≠ 0%nat →
  new_values !! key = Some value →
  point_in (identity_of t w).1 cb (callback_world m new_values t w) fs w' →
  exec_cmd (CSetValues m new_values cb) t w
  = release_after t (identity_of t w).1
      (let '(w2, o) := exec cb (Some (identity_of t w).1) (callback_world m new_values t w) in
       (SetValues_exit m (identity_of t w).1
          (SetValues_enter m (identity_of t w).1 new_values (identity_of t w).2).1 w2, o)) ∧
  GetValue m key (Some (identity_of t w).1) w'
  = found_value (visible fs m key (Some value)) ∧
  ((∀ new_values', (m, new_values') ∈ fs → new_values' !! key = None) →
   GetValue m key (Some (identity_of t w).1) w' = (value, true)) ∧
  (∀ fs' new_values' value',
     fs = fs' ++ [(m, new_values')] → new_values' !! key = Some value' →
     GetValue m key (Some (identity_of t w).1) w' = (value', true)).
Proof.
  intros Hwf Hsz HB Hpoint.
  pose proof (identity_of_wf t w Hwf) as Hwf0.
  destruct (point_in_visible _ _ _ _ _ Hpoint) as [_ Hv].
  { by apply SetValues_enter_wf. }
  assert (Hget : GetValue m key (Some (identity_of t w).1) w'
                 = found_value (visible fs m key (Some value))).
  { rewrite GetValue_lookup, Hv. unfold callback_world.
    rewrite SetValues_enter_lookup by done. rewrite decide_True by done.
    by rewrite HB. }
  split_and!.
  - change (exec_cmd (CSetValues m new_values cb)) with (SetValues m new_values (exec cb)).
    by apply SetValues_unfold.
  - done.
  - intros Hfs. by rewrite Hget, visible_Some_unbound.
  - intros fs' B' v' -> HB'. by rewrite Hget, (visible_innermost _ _ B' _ v').
Qed.

End ContextManager.

(** ** The low-level slot array *)

Section SlotArray.

Implicit Types (w : world) (goID : Z) (t : task).

Lemma extend_cur goID w :
  curMaxGoroutineCount (extend goID w)
  = if uint32 (curMaxGoroutineCount w) <=? goID
    then curMaxGoroutineCount w
         + uint32 (uint32 (uint32 (goID - uint32 (curMaxGoroutineCount w)) / extendUnit + 1)
                   * extendUnit)
    else curMaxGoroutineCount w.
Proof. unfold extend. by destruct (uint32 (curMaxGoroutineCount w) <=? goID). Qed.

Lemma extend_length goID w :
  Z.of_nat (length (globalMaps (extend goID w)))
  = if uint32 (curMaxGoroutineCount w) <=? goID
    then Z.of_nat (length (globalMaps w))
         + uint32 (uint32 (uint32 (goID - uint32 (curMaxGoroutineCount w)) / extendUnit + 1)
                   * extendUnit)
    else Z.of_nat (length (globalMaps w)).
Proof.
  unfold extend. destruct (uint32 (curMaxGoroutineCount w) <=? goID); [|done].
  cbn [globalMaps set_globalMaps].
  rewrite length_app, length_replicate, Nat2Z.inj_add, Z2Nat.id; [done|].
  apply uint32_range.
Qed.

Lemma extend_multiple goID w :
  curMaxGoroutineCount w mod extendUnit = 0 →
  curMaxGoroutineCount (extend goID w) mod extendUnit = 0.
Proof.
  intros Hmod. rewrite extend_cur.
  destruct (uint32 (curMaxGoroutineCount w) <=? goID); [|done].
  unfold uint32 at 1. unfold extendUnit in *.
  set (k := uint32 _) at 1.
  rewrite (Z.mod_eq (k * 128) 4294967296) by lia.
  replace (curMaxGoroutineCount w + (k * 128 - 4294967296 * (k * 128 / 4294967296)))
    with (curMaxGoroutineCount w + (k - 33554432 * (k * 128 / 4294967296)) * 128) by lia.
  by rewrite Z.mod_add by lia.
Qed.

(** [extend] keeps the capacity equal to the length of the array, and a
    multiple of [extendUnit]. *)
Lemma extend_gls_ok goID w : gls_ok w → gls_ok (extend goID w).
Proof.
  intros (Hlen & Hmin & Hmod). split_and!.
  - rewrite extend_length, extend_cur.
    destruct (uint32 (curMaxGoroutineCount w) <=? goID); lia.
  - rewrite extend_cur. destruct (uint32 (curMaxGoroutineCount w) <=? goID); [|done].
    pose proof (uint32_range
      (uint32 (uint32 (goID - uint32 (curMaxGoroutineCount w)) / extendUnit + 1)
       * extendUnit)) as Hr. unfold is_uint32 in Hr. lia.
  - by apply extend_multiple.
Qed.

(** The unit by which [extend] grows the array, when the capacity is a
    [uint32] not above [goID]. *)
Lemma extend_unit goID c :
  is_uint32 goID → initialMaxGoroutineCount ≤ c ≤ goID →
  uint32 (uint32 (uint32 (goID - uint32 c) / extendUnit + 1) * extendUnit)
  = ((goID - c) / extendUnit + 1) * extendUnit.
Proof.
  unfold is_uint32, initialMaxGoroutineCount, extendUnit. intros Hg Hc.
  rewrite (uint32_id c) by (unfold is_uint32; lia).
  rewrite (uint32_id (goID - c)) by (unfold is_uint32; lia).
  assert (0 ≤ (goID - c) / 128 ≤ 33554423).
  { split; [apply Z.div_pos; lia|].
    assert ((goID - c) / 128 < 33554424); [|lia].
    apply Z.div_lt_upper_bound; lia. }
  rewrite (uint32_id (_ + 1)) by (unfold is_uint32; lia).
  apply uint32_id. unfold is_uint32. lia.
Qed.

(** While the capacity is a [uint32], [extend] does what the growth policy
    says: for an index at or above the capacity, the new capacity is the
    least multiple of [extendUnit] above the index; for an index below the
    capacity nothing changes. *)
Lemma extend_grows goID w :
  is_uint32 goID → gls_ok w →
  curMaxGoroutineCount w ≤ goID →
  curMaxGoroutineCount (extend goID w) = extendUnit * (goID / extendUnit + 1) ∧
  Z.of_nat (length (globalMaps (extend goID w))) = extendUnit * (goID / extendUnit + 1) ∧
  goID < curMaxGoroutineCount (extend goID w) ≤ goID + extendUnit.
Proof.
  intros Hg (Hlen & Hmin & Hmod) Hle.
  assert (Hif : (uint32 (curMaxGoroutineCount w) <=? goID) = true).
  { rewrite uint32_id; [by apply Z.leb_le|].
    unfold is_uint32, initialMaxGoroutineCount in *. lia. }
  pose proof (extend_unit goID (curMaxGoroutineCount w) Hg (conj Hmin Hle)) as Hu.
  assert (Hcur : curMaxGoroutineCount (extend goID w)
                 = extendUnit * (goID / extendUnit + 1)).
  { rewrite extend_cur, Hif, Hu. unfold extendUnit in *.
    apply Z.mod_divide in Hmod as [q Hq]; [|lia]. rewrite Hq.
    replace (goID - q * 128) with (goID + (- q) * 128) by lia.
    rewrite Z.div_add by lia. lia. }
  split_and!.
  - done.
  - destruct (extend_gls_ok goID w) as (Hlen' & _); [by split_and!|].
    by rewrite <- Hlen'.
  - rewrite Hcur. unfold extendUnit.
    pose proof (Z.mod_pos_bound goID 128 ltac:(lia)).
    pose proof (Z.div_mod goID 128 ltac:(lia)). lia.
  - rewrite Hcur. unfold extendUnit.
    pose proof (Z.mod_pos_bound goID 128 ltac:(lia)).
    pose proof (Z.div_mod goID 128 ltac:(lia)). lia.
Qed.

Lemma extend_below goID w :
  is_uint32 (curMaxGoroutineCount w) → goID < curMaxGoroutineCount w →
  extend goID w = w.
Proof.
  intros Hc Hlt. unfold extend. rewrite uint32_id by done.
  by rewrite (proj2 (Z.leb_gt _ _)).
Qed.

(** C7, at the input where the code departs from the claim. In the state
    of [init()], [extend(4294967295)] grows the array to [2^32] slots, as
    the claim says. The capacity is then no [uint32] any more:
    [uint32(curMaxGoroutineCount)] is 0, every index passes the test
    [goID >= uint32(curMaxGoroutineCount)], and [extend(0)] grows the
    array by one more unit although index 0 is below the capacity. *)
Theorem extend_grows_below_capacity :
  curMaxGoroutineCount (extend 4294967295 init_world) = 4294967296 ∧
  Z.of_nat (length (globalMaps (extend 4294967295 init_world))) = 4294967296 ∧
  0 < curMaxGoroutineCount (extend 4294967295 init_world) ∧
  curMaxGoroutineCount (extend 0 (extend 4294967295 init_world)) = 4294967424 ∧
  Z.of_nat (length (globalMaps (extend 0 (extend 4294967295 init_world)))) = 4294967424.
Proof.
  assert (H1 : curMaxGoroutineCount (extend 4294967295 init_world) = 4294967296).
  { rewrite extend_cur. reflexivity. }
  assert (H2 : Z.of_nat (length (globalMaps (extend 4294967295 init_world))) = 4294967296).
  { rewrite extend_length. reflexivity. }
  split_and!.
  - exact H1.
  - exact H2.
  - rewrite H1. reflexivity.
  - rewrite extend_cur, H1. reflexivity.
  - rewrite extend_length, H1, H2. reflexivity.
Qed.

End SlotArray.

Section LowLevel.

Implicit Types (w : world) (goID : Z) (t : task).

Lemma Acquire_uint32 p : pool_ok p → is_uint32 (Acquire p).1.
Proof.
  intros [Hc Hq]. unfold Acquire. destruct (queue p) as [|item rest].
  - apply uint32_range.
  - by apply list.Forall_cons in Hq as [? _].
Qed.

Lemma identity_of_uint32 t w : ids_ok t w → is_uint32 (identity_of t w).1.
Proof.
  unfold ids_ok, identity_of, GetGoroutineId. destruct t as [gid|]; [done|].
  intros Hp%Acquire_uint32. by destruct (Acquire (pool w)).
Qed.

Lemma identity_of_gls t w :
  curMaxGoroutineCount (identity_of t w).2 = curMaxGoroutineCount w ∧
  globalMaps (identity_of t w).2 = globalMaps w.
Proof.
  unfold identity_of, GetGoroutineId. destruct t; [done|].
  by destruct (Acquire (pool w)).
Qed.

(** How [WrapWithGLS] runs [f]. *)
Lemma WrapWithGLS_unfold (f : callback) t w w1 :
  WrapWithGLS_enter (identity_of t w).1 (identity_of t w).2 = (w1, Normal) →
  WrapWithGLS f t w = release_after t (identity_of t w).1 (f (Some (identity_of t w).1) w1).
Proof.
  unfold WrapWithGLS, EnsureGoroutineId, release_after, identity_of, GetGoroutineId.
  destruct t as [gid|]; simpl.
  - by intros ->.
  - destruct (Acquire (pool w)) as [gid p]. simpl. by intros ->.
Qed.

(** Before it calls [f], [WrapWithGLS] has made room for the slot of the
    task and put a new, empty map there. *)
Lemma WrapWithGLS_enter_fresh goID w :
  is_uint32 goID → gls_ok w →
  ∃ w1, WrapWithGLS_enter goID w = (w1, Normal) ∧
        globalMaps w1 !! Z.to_nat goID = Some (Some (next_loc w)) ∧
        deref (heap w1) (next_loc w) = ∅ ∧
        gls_ok w1.
Proof.
  intros Hg Hgls. unfold WrapWithGLS_enter.
  set (w0 := if uint32 (curMaxGoroutineCount w) <=? goID then extend goID w else w).
  assert (H0 : next_loc w0 = next_loc w ∧ heap w0 = heap w ∧
               gls_ok w0 ∧ goID < curMaxGoroutineCount w0).
  { unfold w0. destruct (uint32 (curMaxGoroutineCount w) <=? goID) eqn:Hif.
    - assert (Hnl : next_loc (extend goID w) = next_loc w ∧ heap (extend goID w) = heap w).
      { unfold extend. by rewrite Hif. }
      destruct Hnl as [-> ->]. split_and!; try done; [by apply extend_gls_ok|].
      destruct (decide (curMaxGoroutineCount w ≤ goID)) as [Hle|Hgt].
      + by destruct (extend_grows goID w Hg Hgls Hle) as (_ & _ & ? & _).
      + rewrite extend_cur, Hif. pose proof (uint32_range
          (uint32 (uint32 (goID - uint32 (curMaxGoroutineCount w)) / extendUnit + 1)
           * extendUnit)) as Hr. unfold is_uint32 in Hr. lia.
    - split_and!; try done. apply Z.leb_gt in Hif. destruct Hgls as (_ & Hmin & _).
      assert (uint32 (curMaxGoroutineCount w) ≤ curMaxGoroutineCount w); [|lia].
      unfold uint32. apply Z.mod_le; unfold initialMaxGoroutineCount in *; lia. }
  destruct H0 as (Hnl & Hh & (Hlen0 & Hmin0 & Hmod0) & Hlt).
  destruct (lookup_lt_is_Some_2 (globalMaps w0) (Z.to_nat goID)) as [old Hold].
  { unfold is_uint32 in Hg. lia. }
  rewrite Hold. eexists. split; [reflexivity|].
  cbn [make_map set_globalMaps globalMaps heap curMaxGoroutineCount].
  rewrite Hnl. split_and!.
  - apply list_lookup_insert_eq. by apply lookup_lt_Some in Hold.
  - apply deref_insert.
  - split_and!; simpl; [|done|done]. by rewrite length_insert.
Qed.

End LowLevel.

(** ** The worlds a program starts from *)

Section Worlds.

Lemma wf_init_world : wf init_world.
Proof.
  unfold wf. cbn [init_world mgr_values globalMaps next_loc]. split_and!.
  - intros a l Hl. by rewrite lookup_empty in Hl.
  - intros a b l Hl. by rewrite lookup_empty in Hl.
  - intros i c [? _]%lookup_replicate. done.
  - intros i c a [? _]%lookup_replicate. done.
Qed.

Lemma NewContextManager_wf w : wf w → wf (NewContextManager w).2.
Proof. by apply wf_same. Qed.

Lemma Unregister_wf m w : wf w → wf (Unregister m w).
Proof. by apply wf_same. Qed.

Lemma wf_one_manager : wf one_manager.
Proof. apply NewContextManager_wf, wf_init_world. Qed.

Lemma gls_ok_init_world : gls_ok init_world.
Proof. split_and!; [reflexivity|simpl; lia|reflexivity]. Qed.

Lemma gls_ok_one_manager : gls_ok one_manager.
Proof. apply gls_ok_init_world. Qed.

Lemma pool_ok_empty : pool_ok IdPool.empty.
Proof. split; [unfold is_uint32; simpl; lia|constructor]. Qed.

End Worlds.

(** ** What every world of a program satisfies *)

Section Invariants.

Implicit Types (w : world) (t : task) (cb : callback).

Lemma Acquire_pool_ok p : pool_ok p → pool_ok (Acquire p).2.
Proof.
  intros [Hc Hq]. unfold Acquire. destruct (queue p) as [|item rest] eqn:Hqp.
  - split; [apply uint32_range|]. simpl. rewrite Hqp. constructor.
  - apply list.Forall_cons in Hq as [_ Hq]. by split.
Qed.

Lemma Release_pool_ok id p : is_uint32 id → pool_ok p → pool_ok (Release id p).
Proof.
  intros Hid [Hc Hq]. split; [done|]. simpl. apply Forall_app. split; [done|].
  by apply Forall_singleton.
Qed.

Lemma EnsureGoroutineId_keeps_ok (f : Z → world → world * outcome) :
  (∀ gid w, ok (Some gid) w → ok (Some gid) (f gid w).1) →
  keeps_ok (EnsureGoroutineId f).
Proof.
  intros Hf t w (Hg & Hp & Ht). unfold EnsureGoroutineId, GetGoroutineId.
  destruct t as [gid|]; [by apply Hf|].
  pose proof (Acquire_uint32 _ Hp) as Hid. pose proof (Acquire_pool_ok _ Hp) as Hp'.
  destruct (Acquire (pool w)) as [gid p]. simpl in Hid, Hp'.
  destruct (Hf gid (set_pool p w)) as (Hg1 & Hp1 & _); [by split_and!|].
  destruct (f gid (set_pool p w)) as [w' o]. simpl in *.
  split_and!; [done| |done]. by apply Release_pool_ok.
Qed.

(** [SetValues_enter] and [SetValues_exit] touch neither the array nor
    the pool. *)
Lemma SetValues_enter_ok m gid new_values t w :
  ok t w → ok t (SetValues_enter m gid new_values w).2.
Proof.
  intros Hok. destruct (mgr_values w !! (m, gid)) as [st|] eqn:Hst.
  - by destruct (SetValues_enter_found m gid new_values w st Hst) as (mv & h' & -> & _).
  - by destruct (SetValues_enter_fresh m gid new_values w Hst) as (mv & h' & -> & _).
Qed.

Lemma SetValues_exit_ok m gid fr t w : ok t w → ok t (SetValues_exit m gid fr w).
Proof. intros Hok. unfold SetValues_exit. by destruct (fr_found fr). Qed.

Lemma SetValues_keeps_ok m new_values cb : keeps_ok cb → keeps_ok (SetValues m new_values cb).
Proof.
  intros Hcb t w Hok. unfold SetValues.
  destruct (size new_values =? 0)%nat; [by apply Hcb|].
  revert t w Hok. apply EnsureGoroutineId_keeps_ok. intros gid w Hok.
  pose proof (SetValues_enter_ok m gid new_values _ w Hok) as Hok1.
  destruct (SetValues_enter m gid new_values w) as [fr w1]. simpl in Hok1.
  pose proof (Hcb (Some gid) w1 Hok1) as Hok2.
  destruct (cb (Some gid) w1) as [w2 o]. simpl in *.
  by apply SetValues_exit_ok.
Qed.

Lemma WrapWithGLS_enter_ok goID t w : ok t w → ok t (WrapWithGLS_enter goID w).1.
Proof.
  intros (Hg & Hp & Ht). unfold WrapWithGLS_enter.
  set (w1 := if uint32 (curMaxGoroutineCount w) <=? goID then extend goID w else w).
  assert (H1 : gls_ok w1 ∧ pool w1 = pool w).
  { unfold w1. destruct (uint32 (curMaxGoroutineCount w) <=? goID) eqn:Hif; [|done].
    split; [by apply extend_gls_ok|]. unfold extend. by rewrite Hif. }
  destruct H1 as [(Hlen & Hmin & Hmod) Hpool].
  destruct (globalMaps w1 !! Z.to_nat goID); simpl.
  - split_and!; [|by rewrite Hpool|done].
    split_and!; simpl; [by rewrite length_insert|done|done].
  - split_and!; [done|by rewrite Hpool|done].
Qed.

Lemma WrapWithGLS_keeps_ok cb : keeps_ok cb → keeps_ok (WrapWithGLS cb).
Proof.
  intros Hcb. apply EnsureGoroutineId_keeps_ok. intros goID w Hok.
  pose proof (WrapWithGLS_enter_ok goID _ w Hok) as Hok1.
  destruct (WrapWithGLS_enter goID w) as [w' [|]]; simpl in *; [|done].
  by apply Hcb.
Qed.

Lemma exec_keeps_ok_of (cs : list cmd) :
  Forall (λ c, keeps_ok (exec_cmd c)) cs → keeps_ok (exec cs).
Proof.
  induction 1 as [|c cs Hc _ IH]; intros t w Hok; [done|].
  cbn [exec]. pose proof (Hc t w Hok) as Hok1.
  destruct (exec_cmd c t w) as [w1 [|]]; simpl in *; [|done].
  by apply IH.
Qed.

Lemma exec_cmd_keeps_ok (c : cmd) : keeps_ok (exec_cmd c).
Proof.
  induction c as [m key|m new_values cb IH|cb IH| |key value|key|f IH]
    using cmd_nested_ind.
  - intros t w Hok. cbn [exec_cmd]. by destruct (GetValue m key t w).
  - change (exec_cmd (CSetValues m new_values cb)) with (SetValues m new_values (exec cb)).
    by apply SetValues_keeps_ok, exec_keeps_ok_of.
  - by intros t w Hok.
  - by intros t w Hok.
  - intros t w Hok. cbn [exec_cmd].
    assert (Hset : ok t (Set_ key value t w).2).
    { unfold Set_. destruct (getGLS t w) as [[[c|] [|]]|]; done. }
    destruct (Set_ key value t w) as [[e|] w']; done.
  - by intros t w Hok.
  - change (exec_cmd (CWrapWithGLS f)) with (WrapWithGLS (exec f)).
    by apply WrapWithGLS_keeps_ok, exec_keeps_ok_of.
Qed.

Lemma exec_keeps_ok (cs : list cmd) : keeps_ok (exec cs).
Proof. apply exec_keeps_ok_of, Forall_forall. intros c _. apply exec_cmd_keeps_ok. Qed.

Lemma run_layers_keeps_ok ls cb : keeps_ok cb → keeps_ok (run_layers ls cb).
Proof.
  intros Hcb. induction ls as [|[m values] ls IH]; [done|].
  intros t w Hok. cbn [run_layers]. by apply SetValues_keeps_ok.
Qed.

Lemma ok_init_world : ok None init_world.
Proof. split_and!; [apply gls_ok_init_world|apply pool_ok_empty|done]. Qed.

(** Every world of a program satisfies what the properties of the calls
    assume of the world they start in. *)
Lemma reachable_ok w : reachable w → wf w ∧ ok None w.
Proof.
  induction 1 as [|w _ [Hwf Hok]|m w _ [Hwf Hok]|calls w _ [Hwf Hok]|g w _ [Hwf Hok] _].
  - split; [apply wf_init_world|apply ok_init_world].
  - split; [by apply NewContextManager_wf|done].
  - split; [by apply Unregister_wf|done].
  - split; [by apply exec_scoped|by apply exec_keeps_ok].
  - split; [by apply run_goroutine_preserved|].
    by apply run_layers_keeps_ok; [apply exec_keeps_ok|].
Qed.

End Invariants.

(** ** Runs of the examples *)

Section Runs.

(** The nesting law: the inner scope shadows the outer binding, the outer
    binding is back when the inner scope has returned, and nothing is left
    when the outer callback has panicked. *)
Example nesting_trace :
  trace (exec nesting None one_manager).1
  = [EvGetValue 0 (IStr "K") INil false;
     EvGetValue 0 (IStr "K") (IStr "a") true;
     EvGetValue 0 (IStr "K") (IStr "b") true;
     EvGetValue 0 (IStr "K") (IStr "a") true] ∧
  (exec nesting None one_manager).2 = Panicked ∧
  mgr_values (exec nesting None one_manager).1 = ∅ ∧
  GetValue 0 (IStr "K") None (exec nesting None one_manager).1 = (INil, false).
Proof. vm_compute. done. Qed.

(** C3, at the input where the code departs from the claim. [Go] keeps
    the map object that [getValues] returns, the slot of the task itself,
    and the goroutine reads it when it starts. In [spawner] the task sees
    [k1] and [k2] bound when it calls [Go]; the inner scope then returns
    and unbinds [k2] in that map object; the goroutine, started afterwards,
    finds [k1] but not [k2]. *)
Theorem Go_reads_bindings_late :
  trace (exec spawner None one_manager).1
  = [EvGetValue 0 (IStr "k1") (IStr "a") true;
     EvGetValue 0 (IStr "k2") (IStr "b") true] ∧
  ∃ g, spawned (exec spawner None one_manager).1 = [g] ∧
       wrappers g = [(0%nat, 0%nat)] ∧
       trace (run_goroutine g (exec spawner None one_manager).1).1
       = trace (exec spawner None one_manager).1
         ++ [EvGetValue 0 (IStr "k1") (IStr "a") true;
             EvGetValue 0 (IStr "k2") INil false].
Proof.
  split; [by vm_compute|].
  eexists. split; [by vm_compute|]. split; by vm_compute.
Qed.

(** A goroutine that runs before the task that started it changes its
    bindings sees the bindings of that task. *)
Example Go_read_at_once :
  spawned spawned_in_scope = [mkGoroutine [(0%nat, 0%nat)] [CGetValue 0 (IStr "K")]] ∧
  trace (run_goroutine (mkGoroutine [(0%nat, 0%nat)] [CGetValue 0 (IStr "K")])
           spawned_in_scope).1
  = [EvGetValue 0 (IStr "K") (IStr "a") true].
Proof. split; by vm_compute. Qed.

(** A callback that panics. *)
Lemma SetValues_restores_slot_witness :
  GetValue 0 (IStr "K") None
    (exec_cmd (CSetValues 0 {[IStr "K" := IStr "a"]} [CPanic]) None one_manager).1
  = GetValue 0 (IStr "K") None one_manager.
Proof.
  apply (SetValues_restores_slot 0 {[IStr "K" := IStr "a"]} [CPanic] None one_manager
           wf_one_manager _ Panicked).
  by vm_compute.
Defined.

(** Inside the inner scope of the nesting law, and back in the outer
    one. *)
Lemma SetValues_callback_sees_bindings_witness :
  GetValue 0 (IStr "K") (Some 0)
    (exec_cmd (CSetValues 0 {[IStr "K" := IStr "b"]} [CGetValue 0 (IStr "K")]) (Some 0)
       (callback_world 0 {[IStr "K" := IStr "a"]} None one_manager)).1
  = (IStr "a", true).
Proof.
  refine (proj1 (proj2 (proj2
    (SetValues_callback_sees_bindings 0 {[IStr "K" := IStr "a"]}
       [CSetValues 0 {[IStr "K" := IStr "b"]} [CGetValue 0 (IStr "K")]]
       None one_manager [] _ (IStr "K") (IStr "a") wf_one_manager _ _ _))) _).
  - by vm_compute.
  - by vm_compute.
  - eapply point_next; [apply surjective_pairing|].
    apply point_here.
  - intros B HB. by apply elem_of_nil in HB.
Defined.

End Runs.

(** ** [Set] and [Get] *)

Section SetGet.

Implicit Types (w : world) (goID : Z) (t : task).

(** C5. Reading the claim as it stands, it fails for a task that has its
    identity from [SetValues] and not from [WrapWithGLS]: nothing has put
    a map in its slot of the array, and [Set] panics on the nil map
    instead of returning. With an identity at or above the capacity of the
    array, [Get] panics as well. *)
Lemma Set_panics_outside_WrapWithGLS :
  (exec [CSetValues 0 {[IStr "a" := IInt 1]} [CSet "k" (IInt 2)]] None one_manager).2
  = Panicked ∧
  trace (exec [CSetValues 0 {[IStr "a" := IInt 1]} [CSet "k" (IInt 2)]] None one_manager).1
  = [EvSet "k" Panic] ∧
  (Set_ "k" (IInt 2) (Some 0) (callback_world 0 {[IStr "a" := IInt 1]} None one_manager)).1
  = Panic ∧
  Get "k" (Some 1024) one_manager = Panic.
Proof. split_and!; by vm_compute. Qed.

(** C5 (amended). [Set] and [Get] return [NotEnabled] exactly when the
    task has no identity. When the task has an identity and a map in its
    slot of the array, as it has inside [WrapWithGLS], both return the nil
    error, and [Set] has stored the value: [Get] then returns it. *)
Theorem Set_Get_NotEnabled key value t w :
  ((Set_ key value t w).1 = Returned NotEnabled ↔ GetGoroutineId t = None) ∧
  ((∃ v, Get key t w = Returned (v, NotEnabled)) ↔ GetGoroutineId t = None) ∧
  (∀ goID c,
     GetGoroutineId t = Some goID →
     globalMaps w !! Z.to_nat goID = Some (Some c) →
     (Set_ key value t w).1 = Returned ENil ∧
     (∃ v, Get key t w = Returned (v, ENil)) ∧
     Get key t (Set_ key value t w).2 = Returned (value, ENil)).
Proof.
  unfold Set_, Get, getGLS, GetGoroutineId. split_and!.
  - destruct t as [goID|]; [|done].
    destruct (globalMaps w !! Z.to_nat goID) as [[c|]|]; simpl; split; done.
  - destruct t as [goID|]; [|by split; [|exists INil]].
    destruct (globalMaps w !! Z.to_nat goID) as [[c|]|]; simpl;
      (split; [intros [v [=]]|done]).
  - intros goID c -> Hc. rewrite Hc. simpl. split_and!; [done|by eexists|].
    rewrite Hc. by rewrite deref_map_store, lookup_insert_eq.
Qed.

Lemma Set_Get_NotEnabled_witness :
  (Set_ "k" (IInt 2) (Some 0) in_WrapWithGLS).1 = Returned ENil ∧
  (∃ v, Get "k" (Some 0) in_WrapWithGLS = Returned (v, ENil)) ∧
  Get "k" (Some 0) (Set_ "k" (IInt 2) (Some 0) in_WrapWithGLS).2
  = Returned (IInt 2, ENil).
Proof.
  apply (proj2 (proj2 (Set_Get_NotEnabled "k" (IInt 2) (Some 0) in_WrapWithGLS))
           0 0%nat).
  - reflexivity.
  - by vm_compute.
Defined.

(** C6. Reading the claim as it stands, it fails for [Get]: for a key
    that was never set, a task without identity gets the error
    [NotEnabled]; and [Get] has no result that says whether the key was
    found: inside [WrapWithGLS] it returns the same for a key that was
    never set and for a key that was set to nil. *)
Lemma Get_reports_no_found_flag :
  Get "k" None one_manager = Returned (INil, NotEnabled) ∧
  deref (heap in_WrapWithGLS) 0%nat !! IStr "k" = None ∧
  deref (heap (Set_ "k" INil (Some 0) in_WrapWithGLS).2) 0%nat !! IStr "k" = Some INil ∧
  Get "k" (Some 0) in_WrapWithGLS = Returned (INil, ENil) ∧
  Get "k" (Some 0) (Set_ "k" INil (Some 0) in_WrapWithGLS).2 = Returned (INil, ENil).
Proof. split_and!; by vm_compute. Qed.

Lemma visible_None_unbound fs m key :
  (∀ new_values, (m, new_values) ∈ fs → new_values !! key = None) →
  visible fs m key None = None.
Proof.
  induction fs as [|[m' B'] fs IH]; intros Hfs; [done|].
  cbn [visible]. destruct (decide (m' = m)) as [->|Hne].
  - rewrite (Hfs B') by (by left). apply IH. intros B Hin. apply Hfs. by right.
  - apply IH. intros B Hin. apply Hfs. by right.
Qed.

(** C6 (amended). [GetValue] tells that a key is not bound by the boolean
    [false], with the nil value, and has no error result: wherever the
    task is in its run, to any depth of scopes, it gets [(nil, false)] for
    every key that it had not bound in the manager when it started and
    that no call of [SetValues] it is inside of binds there; a task
    without identity gets it for every key. [Get] has no boolean: when
    the task has a map in its slot of the array and the key is not in it,
    [Get] returns the nil value and the nil error, which is also what it
    returns once the key was set to nil; to a task without identity it
    returns the error [NotEnabled]. *)
Theorem GetValue_Get_absent_key m key skey gid (cb : list cmd) w fs w' :
  wf w →
  point_in gid cb w fs w' →
  lookup_value m key (Some gid) w = None →
  (∀ new_values, (m, new_values) ∈ fs → new_values !! key = None) →
  GetValue m key (Some gid) w' = (INil, false) ∧
  GetValue m key None w' = (INil, false) ∧
  (∀ t w0 goID c,
     GetGoroutineId t = Some goID →
     globalMaps w0 !! Z.to_nat goID = Some (Some c) →
     (deref (heap w0) c !! IStr skey = None → Get skey t w0 = Returned (INil, ENil)) ∧
     Get skey t (Set_ skey INil t w0).2 = Returned (INil, ENil)) ∧
  (∀ w0, Get skey None w0 = Returned (INil, NotEnabled)).
Proof.
  intros Hwf Hpoint Hbase Hfs. split_and!.
  - destruct (point_in_visible _ _ _ _ _ Hpoint Hwf) as [_ Hv].
    by rewrite GetValue_lookup, Hv, Hbase, visible_None_unbound.
  - done.
  - intros t w0 goID c Ht Hc. unfold Get, Set_, getGLS. rewrite Ht, Hc. split.
    + by intros ->.
    + cbn [snd set_heap globalMaps heap]. rewrite Hc.
      by rewrite deref_map_store, lookup_insert_eq.
  - done.
Qed.

(** A task inside a scope that binds [K] looks up [J]; a task inside
    [WrapWithGLS] reads [k] before and after it has set it to nil. *)
Lemma GetValue_Get_absent_key_witness :
  GetValue 0 (IStr "J") (Some 5)
    (SetValues_enter 0 5 {[IStr "K" := IStr "a"]} one_manager).2 = (INil, false) ∧
  Get "k" (Some 0) in_WrapWithGLS = Returned (INil, ENil) ∧
  Get "k" (Some 0) (Set_ "k" INil (Some 0) in_WrapWithGLS).2 = Returned (INil, ENil).
Proof.
  destruct (GetValue_Get_absent_key 0 (IStr "J") "k" 5
              [CSetValues 0 {[IStr "K" := IStr "a"]} [CGetValue 0 (IStr "J")]]
              one_manager [(0%nat, {[IStr "K" := IStr "a"]})]
              (SetValues_enter 0 5 {[IStr "K" := IStr "a"]} one_manager).2)
    as (H1 & _ & H3 & _).
  - apply wf_one_manager.
  - apply point_SetValues; [by vm_compute|apply point_here].
  - reflexivity.
  - intros B [Heq|[]%elem_of_nil]%elem_of_cons. injection Heq as ->. by vm_compute.
  - split; [exact H1|].
    destruct (H3 (Some 0) in_WrapWithGLS 0 0%nat) as [H4 H5];
      [reflexivity|by vm_compute|].
    split; [apply H4; by vm_compute|exact H5].
Defined.

End SetGet.

(** * Further properties of the code *)

(** ** What the callback of [SetValues] starts with *)

Section Bindings.

Implicit Types (w : world) (m : mgr) (gid : Z) (t : task).

Lemma identity_of_Some gid w : identity_of (Some gid) w = (gid, w).
Proof. done. Qed.

Lemma identity_of_mgr_values t w :
  mgr_values (identity_of t w).2 = mgr_values w ∧ heap (identity_of t w).2 = heap w.
Proof.
  unfold identity_of, GetGoroutineId. destruct t; [done|].
  by destruct (Acquire (pool w)).
Qed.

(** The slot after [SetValues_enter]: the new bindings on top of the
    bindings that the slot had. *)
Lemma SetValues_enter_slot m gid new_values w :
  slot m (Some gid) (SetValues_enter m gid new_values w).2
  = Some (new_values ∪ default ∅ (slot m (Some gid) w)).
Proof.
  unfold slot. destruct (mgr_values w !! (m, gid)) as [st|] eqn:Hst.
  - destruct (SetValues_enter_found m gid new_values w st Hst)
      as (mv & h' & -> & _ & Hnew & _). simpl. rewrite Hst. simpl. by rewrite Hnew.
  - destruct (SetValues_enter_fresh m gid new_values w Hst)
      as (mv & h' & -> & _ & Hnew). simpl.
    rewrite lookup_insert_eq. simpl. rewrite Hnew. by rewrite (right_id_L ∅ (∪)).
Qed.

(** X1. The callback of [SetValues] starts with a slot that holds the new
    bindings on top of the bindings the task had in the manager: keys of
    [new_values] are added or replaced, every other key keeps its binding
    ([GetValue] gives for it what it gave before the call). *)
Theorem SetValues_adds_or_replaces m new_values t w :
  slot m (Some (identity_of t w).1) (callback_world m new_values t w)
  = Some (new_values
          ∪ default ∅ (slot m (Some (identity_of t w).1) (identity_of t w).2)) ∧
  (∀ key value, new_values !! key = Some value →
     GetValue m key (Some (identity_of t w).1) (callback_world m new_values t w)
     = (value, true)) ∧
  (∀ key, new_values !! key = None →
     GetValue m key (Some (identity_of t w).1) (callback_world m new_values t w)
     = GetValue m key (Some (identity_of t w).1) (identity_of t w).2).
Proof.
  pose proof (SetValues_enter_slot m (identity_of t w).1 new_values (identity_of t w).2)
    as Hslot.
  assert (Hlook : ∀ key,
    lookup_value m key (Some (identity_of t w).1) (callback_world m new_values t w)
    = (new_values
       ∪ default ∅ (slot m (Some (identity_of t w).1) (identity_of t w).2)) !! key).
  { intros key. unfold callback_world. unfold slot in Hslot. unfold lookup_value.
    destruct (mgr_values (SetValues_enter m (identity_of t w).1 new_values
                            (identity_of t w).2).2 !! (m, (identity_of t w).1));
      [|done]. simpl in Hslot. by injection Hslot as ->. }
  split_and!.
  - done.
  - intros key value HB. rewrite GetValue_lookup, Hlook, lookup_union, HB.
    by destruct (default ∅ _ !! key).
  - intros key HB. rewrite !GetValue_lookup, Hlook, lookup_union, HB.
    rewrite (left_id_L None (∪)). f_equal. unfold slot, lookup_value.
    destruct (mgr_values (identity_of t w).2 !! (m, (identity_of t w).1)); [done|].
    simpl. by rewrite lookup_empty.
Qed.

(** X2. A call of [SetValues] inside the callback of a call on the same
    manager gives its callback the slot that one call with the merged
    bindings gives, the inner bindings taking precedence. *)
Theorem SetValues_nested_merges m new_values1 new_values2 t w :
  slot m (Some (identity_of t w).1)
    (callback_world m new_values2 (Some (identity_of t w).1)
       (callback_world m new_values1 t w))
  = slot m (Some (identity_of t w).1)
      (callback_world m (new_values2 ∪ new_values1) t w).
Proof.
  unfold callback_world at 1. rewrite identity_of_Some. cbn [fst snd].
  rewrite SetValues_enter_slot. unfold callback_world.
  rewrite !SetValues_enter_slot. simpl. by rewrite (assoc_L (∪)).
Qed.

End Bindings.

(** ** Bindings are per task and per manager *)

Section Isolation.

Implicit Types (w : world) (m : mgr) (gid : Z) (t : task).

(** [SetValues_enter] for one identity leaves the bindings of every other
    identity alone. *)
Lemma SetValues_enter_other_task m gid new_values w m' key gid' :
  wf w → gid' ≠ gid →
  lookup_value m' key (Some gid') (SetValues_enter m gid new_values w).2
  = lookup_value m' key (Some gid') w.
Proof.
  intros (H1 & H2 & _) Hne. unfold lookup_value.
  destruct (mgr_values w !! (m, gid)) as [st|] eqn:Hst.
  - destruct (SetValues_enter_found m gid new_values w st Hst)
      as (mv & h' & -> & Hother & _). simpl.
    destruct (mgr_values w !! (m', gid')) as [l|] eqn:Hl; [|done].
    rewrite Hother; [done|]. intros <-.
    assert ((m, gid) = (m', gid')) by (by apply H2 with st). congruence.
  - destruct (SetValues_enter_fresh m gid new_values w Hst)
      as (mv & h' & -> & Hother & _). simpl.
    rewrite lookup_insert_ne by congruence.
    destruct (mgr_values w !! (m', gid')) as [l|] eqn:Hl; [|done].
    rewrite Hother; [done|]. specialize (H1 _ _ Hl). lia.
Qed.

Lemma point_in_other_task gid (cb : list cmd) w fs w' :
  point_in gid cb w fs w' →
  wf w →
  ∀ m key gid', gid' ≠ gid →
    lookup_value m key (Some gid') w' = lookup_value m key (Some gid') w.
Proof.
  induction 1 as [cb w|c cb w w1 fs w' Hexec _ IH|m new_values cb' cb w fs w' Hsz _ IH
                 |m new_values cb' cb w fs w' Hsz _ IH|cb' cb w w1 fs w' Henter _ IH];
    intros Hwf m0 key gid' Hne.
  - done.
  - destruct (exec_cmd_scoped c (Some gid) w Hwf) as [Hp Hwf1].
    rewrite Hexec in Hp, Hwf1. simpl in Hp, Hwf1.
    rewrite IH by done. by apply preserved_lookup.
  - rewrite IH by (done || by apply SetValues_enter_wf).
    by apply SetValues_enter_other_task.
  - by apply IH.
  - destruct (WrapWithGLS_enter_preserved gid w Hwf) as [Hp Hwf1].
    rewrite Henter in Hp, Hwf1. simpl in Hp, Hwf1.
    rewrite IH by done. by apply preserved_lookup.
Qed.

Lemma visible_other_manager fs m key base :
  m ∉ fs.*1 → visible fs m key base = base.
Proof.
  revert base. induction fs as [|[m' B'] fs IH]; intros base Hm; [done|].
  simpl in Hm. apply not_elem_of_cons in Hm as [Hne Hm].
  cbn [visible]. rewrite decide_False by done. by apply IH.
Qed.

(** X3. Whatever a task binds, no other task sees it: wherever the task
    is while it runs the callback of [SetValues], to any depth of scopes,
    [GetValue] gives to a task with another identity what it gave before
    the call, for every manager and key. *)
Theorem SetValues_invisible_to_other_tasks m new_values (cb : list cmd) t w
    fs w' m' key gid' :
  wf w →
  gid' ≠ (identity_of t w).1 →
  point_in (identity_of t w).1 cb (callback_world m new_values t w) fs w' →
  GetValue m' key (Some gid') w' = GetValue m' key (Some gid') w.
Proof.
  intros Hwf Hne Hpoint. rewrite !GetValue_lookup. f_equal.
  pose proof (identity_of_wf t w Hwf) as Hwf0.
  rewrite (point_in_other_task _ _ _ _ _ Hpoint) by (done || by apply SetValues_enter_wf).
  unfold callback_world. rewrite SetValues_enter_other_task by done.
  unfold lookup_value. by destruct (identity_of_mgr_values t w) as [-> ->].
Qed.

Lemma SetValues_invisible_to_other_tasks_witness :
  GetValue 0 (IStr "K") (Some 7) (callback_world 0 {[IStr "K" := IStr "a"]} None one_manager)
  = GetValue 0 (IStr "K") (Some 7) one_manager.
Proof.
  apply (SetValues_invisible_to_other_tasks 0 {[IStr "K" := IStr "a"]} [] None one_manager []).
  - apply wf_one_manager.
  - vm_compute. intros [=].
  - apply point_here.
Defined.

(** X4. Managers are independent: wherever the task is while it runs the
    callback of a call of [SetValues] on manager [m], [GetValue] on another
    manager gives what it gave before the call, as long as the task is in
    no scope of that other manager. *)
Theorem SetValues_invisible_to_other_managers m new_values (cb : list cmd) t w
    fs w' m' key :
  wf w →
  m' ∉ m :: fs.*1 →
  point_in (identity_of t w).1 cb (callback_world m new_values t w) fs w' →
  GetValue m' key (Some (identity_of t w).1) w'
  = GetValue m' key (Some (identity_of t w).1) (identity_of t w).2.
Proof.
  intros Hwf [Hne Hfs]%not_elem_of_cons Hpoint. rewrite !GetValue_lookup. f_equal.
  pose proof (identity_of_wf t w Hwf) as Hwf0.
  destruct (point_in_visible _ _ _ _ _ Hpoint) as [_ ->]; [by apply SetValues_enter_wf|].
  rewrite visible_other_manager by done.
  unfold callback_world. rewrite SetValues_enter_lookup by done.
  by rewrite decide_False by done.
Qed.

Lemma SetValues_invisible_to_other_managers_witness :
  GetValue 1 (IStr "K") (Some (identity_of None one_manager).1)
    (callback_world 0 {[IStr "K" := IStr "a"]} None one_manager)
  = GetValue 1 (IStr "K") (Some (identity_of None one_manager).1)
      (identity_of None one_manager).2.
Proof.
  apply (SetValues_invisible_to_other_managers 0 {[IStr "K" := IStr "a"]} [] None
           one_manager []).
  - apply wf_one_manager.
  - simpl. apply not_elem_of_cons. split; [done|apply not_elem_of_nil].
  - apply point_here.
Defined.

End Isolation.

(** ** Invariants of the calls *)

Section CallInvariant.

(** What the steps that the calls are made of all keep, the calls keep. *)
Variable I : world → Prop.
Hypothesis I_pool : ∀ p w, I w → I (set_pool p w).
Hypothesis I_enter : ∀ m gid new_values w, I w → I (SetValues_enter m gid new_values w).2.
Hypothesis I_exit : ∀ m gid fr w, I w → I (SetValues_exit m gid fr w).
Hypothesis I_wrap : ∀ goID w, I w → I (WrapWithGLS_enter goID w).1.
Hypothesis I_set : ∀ key value t w, I w → I (Set_ key value t w).2.
Hypothesis I_emit : ∀ e w, I w → I (emit e w).
Hypothesis I_go : ∀ calls t w, I w → I (Go calls t w).

Lemma EnsureGoroutineId_keeps (f : Z → world → world * outcome) :
  (∀ gid w, I w → I (f gid w).1) → keeps I (EnsureGoroutineId f).
Proof.
  intros Hf t w HI. unfold EnsureGoroutineId, GetGoroutineId.
  destruct t as [gid|]; [by apply Hf|].
  destruct (Acquire (pool w)) as [gid p].
  pose proof (Hf gid (set_pool p w) (I_pool _ _ HI)) as HI'.
  destruct (f gid (set_pool p w)) as [w' o]. simpl in *. by apply I_pool.
Qed.

Lemma SetValues_keeps m new_values cb : keeps I cb → keeps I (SetValues m new_values cb).
Proof.
  intros Hcb t w HI. unfold SetValues.
  destruct (size new_values =? 0)%nat; [by apply Hcb|].
  revert t w HI. apply EnsureGoroutineId_keeps. intros gid w HI.
  pose proof (I_enter m gid new_values w HI) as HI1.
  destruct (SetValues_enter m gid new_values w) as [fr w1]. simpl in HI1.
  pose proof (Hcb (Some gid) w1 HI1) as HI2.
  destruct (cb (Some gid) w1) as [w2 o]. simpl in *. by apply I_exit.
Qed.

Lemma WrapWithGLS_keeps cb : keeps I cb → keeps I (WrapWithGLS cb).
Proof.
  intros Hcb. apply EnsureGoroutineId_keeps. intros goID w HI.
  pose proof (I_wrap goID w HI) as HI1.
  destruct (WrapWithGLS_enter goID w) as [w' [|]]; simpl in *; [|done].
  by apply Hcb.
Qed.

Lemma exec_keeps_of (cs : list cmd) :
  Forall (λ c, keeps I (exec_cmd c)) cs → keeps I (exec cs).
Proof.
  induction 1 as [|c cs Hc _ IH]; intros t w HI; [done|].
  cbn [exec]. pose proof (Hc t w HI) as HI1.
  destruct (exec_cmd c t w) as [w1 [|]]; simpl in *; [|done].
  by apply IH.
Qed.

Lemma exec_cmd_keeps (c : cmd) : keeps I (exec_cmd c).
Proof.
  induction c as [m key|m new_values cb IH|cb IH| |key value|key|f IH]
    using cmd_nested_ind.
  - intros t w HI. cbn [exec_cmd]. destruct (GetValue m key t w). by apply I_emit.
  - change (exec_cmd (CSetValues m new_values cb)) with (SetValues m new_values (exec cb)).
    by apply SetValues_keeps, exec_keeps_of.
  - intros t w HI. by apply I_go.
  - by intros t w HI.
  - intros t w HI. cbn [exec_cmd]. pose proof (I_set key value t w HI) as HI1.
    destruct (Set_ key value t w) as [r w']. simpl in HI1.
    assert (Heq : (set_outcome (r, emit (EvSet key r) w')).1 = emit (EvSet key r) w')
      by (by destruct r).
    rewrite Heq. by apply I_emit.
  - intros t w HI. by apply I_emit.
  - change (exec_cmd (CWrapWithGLS f)) with (WrapWithGLS (exec f)).
    by apply WrapWithGLS_keeps, exec_keeps_of.
Qed.

Lemma exec_keeps (cs : list cmd) : keeps I (exec cs).
Proof. apply exec_keeps_of, Forall_forall. intros c _. apply exec_cmd_keeps. Qed.

Lemma run_layers_keeps ls cb : keeps I cb → keeps I (run_layers ls cb).
Proof.
  intros Hcb. induction ls as [|[m values] ls IH]; [done|].
  intros t w HI. cbn [run_layers]. by apply SetValues_keeps.
Qed.

End CallInvariant.

(** ** The slots of the array *)

Section Slots.

Implicit Types (w : world) (goID : Z) (t : task).

(** [Get] looks at the array and at the maps of its slots only. *)
Lemma Get_same key t w w' :
  globalMaps w' = globalMaps w →
  (∀ i c, globalMaps w !! i = Some (Some c) → deref (heap w') c = deref (heap w) c) →
  Get key t w' = Get key t w.
Proof.
  intros Hg Hh. unfold Get, getGLS. rewrite Hg.
  destruct (GetGoroutineId t) as [goID|]; [|done].
  destruct (globalMaps w !! Z.to_nat goID) as [[c|]|] eqn:Hc; [|done|done].
  by rewrite (Hh _ _ Hc).
Qed.



(** X18. When [Set] and [Get] panic: [Get] panics exactly when the task
    has an identity that is no index of the array; [Set] panics then, and
    also when the slot of the task is the nil map, where [Get] returns nil.
    A [Set] that does not return the nil error has written nothing. *)
Theorem Set_Get_panics key value t w :
  (Get key t w = Panic ↔
   ∃ goID, GetGoroutineId t = Some goID ∧ globalMaps w !! Z.to_nat goID = None) ∧
  ((Set_ key value t w).1 = Panic ↔
   ∃ goID, GetGoroutineId t = Some goID ∧
           (globalMaps w !! Z.to_nat goID = None ∨
            globalMaps w !! Z.to_nat goID = Some None)) ∧
  ((∃ goID, GetGoroutineId t = Some goID ∧ globalMaps w !! Z.to_nat goID = Some None) →
   Get key t w = Returned (INil, ENil)) ∧
  ((Set_ key value t w).1 = Returned ENil ∨ (Set_ key value t w).2 = w).
Proof.
  unfold Set_, Get, getGLS, GetGoroutineId. destruct t as [goID|]; simpl.
  - destruct (globalMaps w !! Z.to_nat goID) as [[c|]|] eqn:Hc; simpl.
    + split_and!; [| | |by left].
      * split; [done|]. intros (g & [= <-] & H). congruence.
      * split; [done|]. intros (g & [= <-] & [H|H]); congruence.
      * intros (g & [= <-] & H). congruence.
    + split_and!; [| |done|by right].
      * split; [done|]. intros (g & [= <-] & H). congruence.
      * split; [|done]. intros _. exists goID. split; [done|by right].
    + split_and!; [| | |by right].
      * split; [|done]. intros _. by exists goID.
      * split; [|done]. intros _. exists goID. split; [done|by left].
      * intros (g & [= <-] & H). congruence.
  - split_and!; [| | |by right].
    + split; [done|]. intros (g & [=] & _).
    + split; [done|]. intros (g & [=] & _).
    + intros (g & [=] & _).
Qed.

(** X7. [Set] never changes what [GetValue] returns, for any manager, key
    and task. *)
Theorem Set_leaves_bindings key value t w m mkey t' :
  wf w →
  GetValue m mkey t' (Set_ key value t w).2 = GetValue m mkey t' w.
Proof.
  intros Hwf. destruct (Set_preserved key value t w Hwf) as [Hp _].
  rewrite !GetValue_lookup. f_equal. by apply preserved_lookup.
Qed.

Lemma Set_leaves_bindings_witness :
  GetValue 0 (IStr "k") (Some 0) (Set_ "k" (IInt 2) (Some 0) in_WrapWithGLS).2
  = GetValue 0 (IStr "k") (Some 0) in_WrapWithGLS.
Proof.
  apply Set_leaves_bindings.
  destruct (WrapWithGLS_enter_preserved 0 one_manager wf_one_manager) as [_ Hwf].
  exact Hwf.
Defined.

(** X8. Neither half of [SetValues] changes what [Get] returns to any
    task: not the binding of the new values, and not the deferred function
    that undoes it, whatever the callback did to the slots of the managers
    in between as long as it left them in place. *)
Theorem SetValues_leaves_array m gid new_values w key t' :
  wf w →
  Get key t' (SetValues_enter m gid new_values w).2 = Get key t' w ∧
  (∀ w2, preserved (SetValues_enter m gid new_values w).2 w2 → wf w2 →
     Get key t' (SetValues_exit m gid (SetValues_enter m gid new_values w).1 w2)
     = Get key t' w2).
Proof.
  intros Hwf. pose proof Hwf as (H1 & H2 & H3 & H4).
  destruct (mgr_values w !! (m, gid)) as [st|] eqn:Hst.
  - destruct (SetValues_enter_found m gid new_values w st Hst)
      as (mv & h' & -> & Hother & _). simpl. split.
    + apply Get_same; [done|]. intros i c Hc. apply Hother.
      intros ->. by apply (H4 i c (m, gid)).
    + intros w2 (Hv & _) (_ & _ & _ & H4'). unfold SetValues_exit. simpl.
      apply Get_same; [done|]. intros i c Hc. simpl.
      destruct (restore_loop st mv (map_to_list new_values).*1 (heap w2)) as [Ro _].
      apply Ro. intros ->. apply (H4' i c (m, gid) Hc). simpl in Hv. by rewrite Hv.
  - destruct (SetValues_enter_fresh m gid new_values w Hst)
      as (mv & h' & -> & Hother & _). simpl. split.
    + apply Get_same; [done|]. intros i c Hc. apply Hother.
      specialize (H3 i c Hc). lia.
    + intros w2 _ _. unfold SetValues_exit. simpl. by apply Get_same.
Qed.

Lemma SetValues_leaves_array_witness :
  Get "k" (Some 0) (SetValues_enter 0 0 {[IStr "K" := IStr "a"]} slot_in_use).2
  = Get "k" (Some 0) slot_in_use.
Proof.
  apply (SetValues_leaves_array 0 0 {[IStr "K" := IStr "a"]} slot_in_use "k" (Some 0)).
  destruct (WrapWithGLS_enter_preserved 0 one_manager wf_one_manager) as [_ Hwf].
  by destruct (Set_preserved "k" (IInt 2) (Some 0) in_WrapWithGLS Hwf) as [_ Hwf'].
Defined.

End Slots.

Section SlotsOfTasks.

Implicit Types (w : world) (goID : Z) (t : task).

Lemma extend_lookup goID w i x :
  globalMaps w !! i = Some x → globalMaps (extend goID w) !! i = Some x.
Proof.
  intros Hx. unfold extend.
  destruct (uint32 (curMaxGoroutineCount w) <=? goID); [|done].
  cbn [globalMaps set_globalMaps]. by apply lookup_app_l_Some.
Qed.

Lemma extend_lookup_inv goID w i x :
  globalMaps (extend goID w) !! i = Some x →
  globalMaps w !! i = Some x ∨ (x = None ∧ globalMaps w !! i = None).
Proof.
  unfold extend. destruct (uint32 (curMaxGoroutineCount w) <=? goID); [|by left].
  cbn [globalMaps set_globalMaps]. intros [H|[Hlen H]]%lookup_app_Some; [by left|].
  right. apply lookup_replicate in H as [-> _]. split; [done|].
  by apply lookup_ge_None.
Qed.

Lemma extend_other_fields goID w :
  heap (extend goID w) = heap w ∧ next_loc (extend goID w) = next_loc w ∧
  mgr_values (extend goID w) = mgr_values w ∧ pool (extend goID w) = pool w ∧
  trace (extend goID w) = trace w.
Proof. unfold extend. by destruct (uint32 (curMaxGoroutineCount w) <=? goID). Qed.

(** X9. [extend] never touches a slot that exists: every index keeps the
    map it has, the slots it adds hold the nil map, the capacity does not
    shrink, and nothing but the array and its capacity changes. *)
Theorem extend_keeps_slots goID w :
  (∀ i x, globalMaps w !! i = Some x → globalMaps (extend goID w) !! i = Some x) ∧
  (∀ i x, globalMaps (extend goID w) !! i = Some x →
     globalMaps w !! i = Some x ∨ (x = None ∧ globalMaps w !! i = None)) ∧
  curMaxGoroutineCount w ≤ curMaxGoroutineCount (extend goID w) ∧
  heap (extend goID w) = heap w ∧
  mgr_values (extend goID w) = mgr_values w ∧
  pool (extend goID w) = pool w.
Proof.
  destruct (extend_other_fields goID w) as (Hh & _ & Hv & Hp & _). split_and!; try done.
  - intros i x. apply extend_lookup.
  - intros i x. apply extend_lookup_inv.
  - rewrite extend_cur. destruct (uint32 (curMaxGoroutineCount w) <=? goID); [|lia].
    pose proof (uint32_range
      (uint32 (uint32 (goID - uint32 (curMaxGoroutineCount w)) / extendUnit + 1)
       * extendUnit)) as Hr. unfold is_uint32 in Hr. lia.
Qed.

(** X10. As long as the capacity is a [uint32], [extend] follows the
    growth policy: an index below the capacity changes nothing; for an
    index at or above it, the new capacity, which is the new length of the
    array, is the least multiple of [extendUnit] above the index. *)
Theorem extend_to_next_unit goID w :
  is_uint32 goID → gls_ok w → is_uint32 (curMaxGoroutineCount w) →
  (goID < curMaxGoroutineCount w → extend goID w = w) ∧
  (curMaxGoroutineCount w ≤ goID →
   curMaxGoroutineCount (extend goID w) = extendUnit * (goID / extendUnit + 1) ∧
   Z.of_nat (length (globalMaps (extend goID w))) = extendUnit * (goID / extendUnit + 1) ∧
   goID < curMaxGoroutineCount (extend goID w) ≤ goID + extendUnit) ∧
  gls_ok (extend goID w).
Proof.
  intros Hg Hok Hc. split_and!.
  - by apply extend_below.
  - by apply extend_grows.
  - by apply extend_gls_ok.
Qed.

(** [extend(initialMaxGoroutineCount + extendUnit*10)] in the state of
    [init()]. *)
Lemma extend_to_next_unit_witness :
  curMaxGoroutineCount (extend 2304 init_world) = extendUnit * (2304 / extendUnit + 1).
Proof.
  refine (proj1 (proj1 (proj2
    (extend_to_next_unit 2304 init_world _ gls_ok_init_world _)) _));
    by vm_compute.
Defined.

Lemma gls_distinct_init_world : gls_distinct init_world.
Proof.
  split; cbn [init_world globalMaps next_loc].
  - intros i c [? _]%lookup_replicate. done.
  - intros i j c [? _]%lookup_replicate. done.
Qed.

Lemma gls_distinct_same w w' :
  globalMaps w' = globalMaps w → (next_loc w ≤ next_loc w')%nat →
  gls_distinct w → gls_distinct w'.
Proof.
  intros Hg Hn [H1 H2]. unfold gls_distinct. rewrite Hg. split; [|done].
  intros i c Hc. specialize (H1 i c Hc). lia.
Qed.

Lemma SetValues_enter_array m gid new_values w :
  globalMaps (SetValues_enter m gid new_values w).2 = globalMaps w ∧
  curMaxGoroutineCount (SetValues_enter m gid new_values w).2 = curMaxGoroutineCount w ∧
  (next_loc w ≤ next_loc (SetValues_enter m gid new_values w).2)%nat ∧
  trace (SetValues_enter m gid new_values w).2 = trace w ∧
  pool (SetValues_enter m gid new_values w).2 = pool w ∧
  spawned (SetValues_enter m gid new_values w).2 = spawned w ∧
  mgrRegistry (SetValues_enter m gid new_values w).2 = mgrRegistry w.
Proof.
  destruct (mgr_values w !! (m, gid)) as [st|] eqn:Hst.
  - by destruct (SetValues_enter_found m gid new_values w st Hst) as (mv & h' & -> & _).
  - destruct (SetValues_enter_fresh m gid new_values w Hst) as (mv & h' & -> & _).
    simpl. split_and!; try done. lia.
Qed.

Lemma SetValues_exit_array m gid fr w :
  globalMaps (SetValues_exit m gid fr w) = globalMaps w ∧
  next_loc (SetValues_exit m gid fr w) = next_loc w ∧
  trace (SetValues_exit m gid fr w) = trace w ∧
  pool (SetValues_exit m gid fr w) = pool w ∧
  spawned (SetValues_exit m gid fr w) = spawned w ∧
  mgrRegistry (SetValues_exit m gid fr w) = mgrRegistry w.
Proof. unfold SetValues_exit. by destruct (fr_found fr). Qed.

Lemma Set_array key value t w :
  globalMaps (Set_ key value t w).2 = globalMaps w ∧
  next_loc (Set_ key value t w).2 = next_loc w.
Proof. unfold Set_. by destruct (getGLS t w) as [[[c|] [|]]|]. Qed.

Lemma WrapWithGLS_enter_distinct goID w :
  gls_distinct w → gls_distinct (WrapWithGLS_enter goID w).1.
Proof.
  intros [H1 H2]. unfold WrapWithGLS_enter.
  set (w1 := if uint32 (curMaxGoroutineCount w) <=? goID then extend goID w else w).
  assert (Hw1 : gls_distinct w1).
  { unfold w1. destruct (uint32 (curMaxGoroutineCount w) <=? goID); [|done].
    destruct (extend_other_fields goID w) as (_ & Hn & _). split.
    - intros i c [Hc|[[=] _]]%extend_lookup_inv. rewrite Hn. by apply H1 with i.
    - intros i j c [Hi|[[=] _]]%extend_lookup_inv [Hj|[[=] _]]%extend_lookup_inv.
      by apply H2 with c. }
  destruct Hw1 as [H1' H2'].
  destruct (globalMaps w1 !! Z.to_nat goID) as [old|] eqn:Hold; [|done].
  cbn [make_map fst]. split; simpl.
  - intros i c Hc. destruct (decide (i = Z.to_nat goID)) as [->|Hne].
    + apply list_lookup_insert_Some in Hc as [(_ & [= <-] & _)|[? _]]; [lia|done].
    + rewrite list_lookup_insert_ne in Hc by done. specialize (H1' i c Hc). lia.
  - intros i j c Hi Hj.
    destruct (decide (i = Z.to_nat goID)) as [->|Hni],
             (decide (j = Z.to_nat goID)) as [->|Hnj]; [done| | |].
    + apply list_lookup_insert_Some in Hi as [(_ & [= <-] & _)|[? _]]; [|done].
      rewrite list_lookup_insert_ne in Hj by done. specialize (H1' j _ Hj). lia.
    + apply list_lookup_insert_Some in Hj as [(_ & [= <-] & _)|[? _]]; [|done].
      rewrite list_lookup_insert_ne in Hi by done. specialize (H1' i _ Hi). lia.
    + rewrite list_lookup_insert_ne in Hi, Hj by done. by apply H2' with c.
Qed.

Lemma SetValues_enter_distinct m gid new_values w :
  gls_distinct w → gls_distinct (SetValues_enter m gid new_values w).2.
Proof.
  destruct (SetValues_enter_array m gid new_values w) as (Hg & _ & Hn & _).
  by apply gls_distinct_same.
Qed.

Lemma SetValues_exit_distinct m gid fr w :
  gls_distinct w → gls_distinct (SetValues_exit m gid fr w).
Proof.
  destruct (SetValues_exit_array m gid fr w) as (Hg & Hn & _).
  apply gls_distinct_same; [done|lia].
Qed.

Lemma exec_gls_distinct (cs : list cmd) : keeps gls_distinct (exec cs).
Proof.
  apply exec_keeps.
  - by intros p w.
  - apply SetValues_enter_distinct.
  - apply SetValues_exit_distinct.
  - apply WrapWithGLS_enter_distinct.
  - intros key value t w. destruct (Set_array key value t w) as [Hg Hn].
    apply gls_distinct_same; [done|lia].
  - by intros e w.
  - by intros calls t w.
Qed.

(** In every world of a program the slots of the array are map objects of
    their own. *)
Lemma reachable_gls_distinct w : reachable w → gls_distinct w.
Proof.
  induction 1 as [|w _ IH|m w _ IH|calls w _ IH|g w _ IH _].
  - apply gls_distinct_init_world.
  - done.
  - done.
  - by apply exec_gls_distinct.
  - apply (run_layers_keeps gls_distinct); try done.
    + apply SetValues_enter_distinct.
    + apply SetValues_exit_distinct.
    + apply exec_gls_distinct.
Qed.

(** X6. The slots of the array are per identity: a [Set] by one task
    never changes what [Get] returns to a task with another identity. *)
Theorem Set_invisible_to_other_identity key value key' goID goID' w :
  gls_distinct w → is_uint32 goID → is_uint32 goID' → goID ≠ goID' →
  Get key' (Some goID') (Set_ key value (Some goID) w).2 = Get key' (Some goID') w.
Proof.
  intros [_ H2] Hg Hg' Hne. unfold Set_, getGLS, GetGoroutineId.
  destruct (globalMaps w !! Z.to_nat goID) as [[c|]|] eqn:Hc; try done.
  unfold Get, getGLS, GetGoroutineId. simpl.
  destruct (globalMaps w !! Z.to_nat goID') as [[c'|]|] eqn:Hc'; try done.
  rewrite deref_map_store_ne; [done|]. intros ->.
  assert (Z.to_nat goID = Z.to_nat goID') by (by apply H2 with c').
  unfold is_uint32 in *. lia.
Qed.

Lemma Set_invisible_to_other_identity_witness :
  Get "k" (Some 1) (Set_ "k" (IInt 2) (Some 0) in_WrapWithGLS).2
  = Get "k" (Some 1) in_WrapWithGLS.
Proof.
  apply Set_invisible_to_other_identity.
  - apply WrapWithGLS_enter_distinct, gls_distinct_init_world.
  - by vm_compute.
  - by vm_compute.
  - intros [=].
Defined.

End SlotsOfTasks.

(** ** More on the identity pool *)

Section PoolReuse.

(** X13. The pool loses no id and keeps the ids small: after any run of
    [Acquire] and [Release] (a [Release] only of an id that is held, fewer
    than [2^32] calls of [Acquire]), the ids that wait in the queue and the
    ids that are held are together exactly [0, ..., curID - 1], each once;
    so every id held is below the number of calls of [Acquire]. *)
Theorem pool_conserves_ids (ops : list op) (s : sys) :
  run ops init = Some s →
  acquires ops < 2 ^ 32 →
  queue (sys_pool s) ++ live s ≡ₚ seqZ 0 (curID (sys_pool s)) ∧
  curID (sys_pool s) ≤ acquires ops ∧
  Forall (λ id, 0 ≤ id < acquires ops) (live s).
Proof.
  change (2 ^ 32) with 4294967296. intros Hrun Hb.
  destruct (run_inv ops 0 init s pool_inv_init Hrun) as (n & Hinv & Hn); [lia|].
  destruct Hinv as (Hn' & Hcur & Hnd & Hmem & _).
  assert (Hc : curID (sys_pool s) = n).
  { rewrite Hcur. apply uint32_id. unfold is_uint32. lia. }
  rewrite Hc. split_and!.
  - apply NoDup_Permutation; [done|apply NoDup_seqZ|].
    intros x. rewrite Hmem, elem_of_seqZ. lia.
  - lia.
  - apply list.Forall_forall. intros id Hid.
    assert (0 ≤ id < n); [|lia]. apply Hmem, elem_of_app. by right.
Qed.

Lemma pool_conserves_ids_witness :
  queue {| queue := [0]; curID := 2 |} ++ [1] ≡ₚ seqZ 0 (curID {| queue := [0]; curID := 2 |}).
Proof.
  apply (pool_conserves_ids [OAcquire; OAcquire; ORelease 0]
           {| sys_pool := {| queue := [0]; curID := 2 |}; live := [1]; history := [1; 0] |}).
  - reflexivity.
  - by vm_compute.
Defined.

Lemma release_all_queue ids p :
  release_all ids p = {| queue := queue p ++ ids; curID := curID p |}.
Proof.
  revert p. induction ids as [|id ids IH]; intros p.
  - destruct p. simpl. by rewrite app_nil_r.
  - unfold release_all in *. cbn [foldl]. rewrite IH. unfold Release. simpl.
    by rewrite <- app_assoc.
Qed.

Lemma acquire_n_queue q c :
  acquire_n (length q) {| queue := q; curID := c |} = (q, {| queue := []; curID := c |}).
Proof.
  induction q as [|id q IH]; [done|].
  cbn [length acquire_n]. unfold Acquire at 1. cbn [queue curID]. by rewrite IH.
Qed.

(** X14. Released ids come first and in the order of their release: after
    the ids [ids] are released, as many calls of [Acquire] as ids wait
    return the ids that waited before and then [ids], in that order, and
    leave the queue empty and the counter as it was; only the next call
    takes a fresh id from the counter. *)
Theorem Acquire_reuses_released_ids (ids : list Z) (p : idPool) :
  acquire_n (length (queue p ++ ids)) (release_all ids p)
  = (queue p ++ ids, {| queue := []; curID := curID p |}) ∧
  Acquire (acquire_n (length (queue p ++ ids)) (release_all ids p)).2
  = newID {| queue := []; curID := curID p |}.
Proof.
  rewrite release_all_queue, acquire_n_queue. done.
Qed.

End PoolReuse.

(** ** What [Go] hands on *)

Section Propagation.

Implicit Types (w : world) (m : mgr) (gid : Z) (t : task).

Lemma Go_layers_of (calls : list cmd) t w :
  Go calls t w = set_spawned (spawned w ++ [mkGoroutine (layers_of t w) calls]) w.
Proof. done. Qed.

(** The loop of [Go] over a part of the registry. *)
Lemma layers_fold t w (reg : list mgr) :
  ∀ acc m l,
    (m, l) ∈ foldl (λ ls m,
                match getValues m t w with
                | Some values =>
                    if (0 <? size (deref (heap w) values))%nat
                    then (m, values) :: ls else ls
                | None => ls
                end) acc reg
    ↔ (m, l) ∈ acc ∨
      (m ∈ reg ∧ getValues m t w = Some l ∧ size (deref (heap w) l) ≠ 0%nat).
Proof.
  induction reg as [|m0 reg IH]; intros acc m l; cbn [foldl].
  - split; [by left|]. intros [?|[[]%elem_of_nil _]]. done.
  - rewrite IH. rewrite elem_of_cons.
    destruct (getValues m0 t w) as [l0|] eqn:Hl0.
    + destruct (0 <? size (deref (heap w) l0))%nat eqn:Hsz.
      * apply Nat.ltb_lt in Hsz. rewrite elem_of_cons. split.
        -- intros [[[= -> ->]|?]|(? & ? & ?)]; [right|by left|right]; split_and!;
             try done; [by left|lia|by right].
        -- intros [?|([->|?] & Hg & Hs)]; [left; by right| |right; by split_and!].
           left. left. congruence.
      * apply Nat.ltb_ge in Hsz. split.
        -- intros [?|(? & ? & ?)]; [by left|right]. split_and!; try done. by right.
        -- intros [?|([->|?] & Hg & Hs)]; [by left| |right; by split_and!].
           rewrite Hl0 in Hg. injection Hg as <-. lia.
    + split.
      * intros [?|(? & ? & ?)]; [by left|right]. split_and!; try done. by right.
      * intros [?|([->|?] & Hg & Hs)]; [by left|congruence|right; by split_and!].
Qed.

Lemma elem_of_layers_of t w m l :
  (m, l) ∈ layers_of t w
  ↔ m ∈ mgrRegistry w ∧ getValues m t w = Some l ∧ size (deref (heap w) l) ≠ 0%nat.
Proof.
  unfold layers_of. rewrite layers_fold. split; [|by right].
  by intros [[]%elem_of_nil|?].
Qed.

Lemma NoDup_layers t w (reg : list mgr) :
  ∀ acc,
    NoDup reg → NoDup acc.*1 → (∀ m, m ∈ reg → m ∉ acc.*1) →
    NoDup (foldl (λ ls m,
              match getValues m t w with
              | Some values =>
                  if (0 <? size (deref (heap w) values))%nat
                  then (m, values) :: ls else ls
              | None => ls
              end) acc reg).*1.
Proof.
  induction reg as [|m0 reg IH]; intros acc Hreg Hacc Hdisj; [done|].
  apply list.NoDup_cons in Hreg as [Hm0 Hreg]. cbn [foldl]. apply IH; [done| |].
  - destruct (getValues m0 t w) as [l0|]; [|done].
    destruct (0 <? size (deref (heap w) l0))%nat; [|done].
    cbn [fmap list_fmap fst]. apply list.NoDup_cons. split; [|done].
    apply Hdisj. by left.
  - intros m Hm. assert (m ∉ acc.*1) by (apply Hdisj; by right).
    destruct (getValues m0 t w) as [l0|]; [|done].
    destruct (0 <? size (deref (heap w) l0))%nat; [|done].
    cbn [fmap list_fmap fst]. apply not_elem_of_cons. split; [|done].
    intros ->. done.
Qed.

(** The registry is a set: a manager is entered once, when it is made. *)
Lemma registry_keeps (reg : list mgr) (n : mgr) (calls : list cmd) t w :
  mgrRegistry w = reg ∧ next_mgr w = n →
  mgrRegistry (exec calls t w).1 = reg ∧ next_mgr (exec calls t w).1 = n.
Proof.
  refine (exec_keeps (λ w', mgrRegistry w' = reg ∧ next_mgr w' = n)
            _ _ _ _ _ _ _ calls t w).
  - by intros p w' H.
  - intros m gid new_values w' H. unfold SetValues_enter.
    destruct (mgr_values w' !! (m, gid)); cbn [make_map];
      by destruct (foldl _ _ _) as [[? ?] ?].
  - intros m gid fr w' H. unfold SetValues_exit. by destruct (fr_found fr).
  - intros goID w' H. unfold WrapWithGLS_enter, extend.
    destruct (uint32 (curMaxGoroutineCount w') <=? goID);
      by destruct (globalMaps _ !! Z.to_nat goID).
  - intros key value t' w' H. unfold Set_. by destruct (getGLS t' w') as [[[c|] [|]]|].
  - by intros e w' H.
  - by intros calls' t' w' H.
Qed.

Lemma reachable_registry w :
  reachable w → NoDup (mgrRegistry w) ∧ ∀ m, m ∈ mgrRegistry w → (m < next_mgr w)%nat.
Proof.
  induction 1 as [|w _ [IH1 IH2]|m w _ [IH1 IH2]|calls w _ IH|g w _ IH _].
  - split; [apply NoDup_nil_2|]. by intros m []%elem_of_nil.
  - unfold NewContextManager. cbn [snd set_registry mgrRegistry next_mgr]. split.
    + apply list.NoDup_app. split_and!; [done| |apply NoDup_singleton].
      intros m Hm ->%list_elem_of_singleton. specialize (IH2 _ Hm). lia.
    + intros m [Hm| ->%list_elem_of_singleton]%elem_of_app; [|lia].
      specialize (IH2 _ Hm). lia.
  - unfold Unregister. cbn [set_registry mgrRegistry next_mgr]. split.
    + by apply list.NoDup_filter.
    + intros m' [_ Hm]%list_elem_of_filter. by apply IH2.
  - by destruct (registry_keeps _ _ calls None w (conj eq_refl eq_refl)) as [-> ->].
  - assert (Hk : mgrRegistry (run_goroutine g w).1 = mgrRegistry w ∧
                 next_mgr (run_goroutine g w).1 = next_mgr w);
      [|by destruct Hk as [-> ->]].
    unfold run_goroutine.
    refine (run_layers_keeps (λ w', mgrRegistry w' = mgrRegistry w ∧
                                    next_mgr w' = next_mgr w)
              _ _ _ (wrappers g) (exec (body g)) _ None w _); try done.
    + intros m gid new_values w' H'. unfold SetValues_enter.
      destruct (mgr_values w' !! (m, gid)); cbn [make_map];
        by destruct (foldl _ _ _) as [[? ?] ?].
    + intros m gid fr w' H'. unfold SetValues_exit. by destruct (fr_found fr).
    + intros t' w' H'. by apply registry_keeps.
Qed.

(** X15. What [Go] propagates: the closure it starts has exactly one
    layer [mgr.SetValues(values, cb)] for each registered manager in which
    the calling task has a slot with at least one binding, and [values] is
    the map of that slot itself; managers that are not registered, in
    which the task has no slot or an empty one, get no layer, and a task
    without identity propagates nothing. [Go] itself changes nothing but
    the list of goroutines. The registry is a set of managers. *)
Theorem Go_layers (calls : list cmd) t w :
  NoDup (mgrRegistry w) →
  Go calls t w = set_spawned (spawned w ++ [mkGoroutine (layers_of t w) calls]) w ∧
  (∀ m l, (m, l) ∈ layers_of t w
          ↔ m ∈ mgrRegistry w ∧ getValues m t w = Some l ∧
            size (deref (heap w) l) ≠ 0%nat) ∧
  NoDup (layers_of t w).*1 ∧
  (GetGoroutineId t = None → layers_of t w = []) ∧
  (∀ m key t', GetValue m key t' (Go calls t w) = GetValue m key t' w) ∧
  pool (Go calls t w) = pool w.
Proof.
  intros Hnd. split_and!; try done.
  - intros m l. apply elem_of_layers_of.
  - unfold layers_of. apply NoDup_layers; [done|constructor|].
    intros ? _. apply not_elem_of_nil.
  - intros Ht. destruct (layers_of t w) as [|[m l] ls] eqn:Hls; [done|].
    assert (Hin : (m, l) ∈ layers_of t w) by (rewrite Hls; by left).
    apply elem_of_layers_of in Hin as (_ & Hg & _).
    unfold getValues in Hg. by rewrite Ht in Hg.
Qed.

(** Two managers, the task has bindings in the first only: one layer. *)
Lemma Go_layers_witness :
  layers_of (Some 5)
    (callback_world 0 {[IStr "K" := IStr "a"]} (Some 5) (NewContextManager one_manager).2)
  = [(0%nat, 0%nat)] ∧
  NoDup (layers_of (Some 5)
           (callback_world 0 {[IStr "K" := IStr "a"]} (Some 5)
              (NewContextManager one_manager).2)).*1.
Proof.
  split; [by vm_compute|].
  apply (Go_layers [] (Some 5)
           (callback_world 0 {[IStr "K" := IStr "a"]} (Some 5)
              (NewContextManager one_manager).2)).
  replace (mgrRegistry (callback_world 0 {[IStr "K" := IStr "a"]} (Some 5)
                          (NewContextManager one_manager).2))
    with [0%nat; 1%nat] by (by vm_compute).
  apply list.NoDup_cons. split.
  - apply not_elem_of_cons. split; [done|apply not_elem_of_nil].
  - apply list.NoDup_cons. split; [apply not_elem_of_nil|apply NoDup_nil_2].
Defined.

(** X16. [Unregister] stops the propagation of a manager and nothing
    else: [Go] builds no layer for it any more and the same layers as
    before for the other managers, and [GetValue] on the manager returns
    what it returned before. *)
Theorem Unregister_stops_propagation m t w :
  (∀ m' l, (m', l) ∈ layers_of t (Unregister m w)
           ↔ m' ≠ m ∧ (m', l) ∈ layers_of t w) ∧
  (∀ m', m' ∈ mgrRegistry (Unregister m w) ↔ m' ≠ m ∧ m' ∈ mgrRegistry w) ∧
  (∀ m' key t', GetValue m' key t' (Unregister m w) = GetValue m' key t' w).
Proof.
  assert (Hreg : ∀ m', m' ∈ mgrRegistry (Unregister m w) ↔ m' ≠ m ∧ m' ∈ mgrRegistry w).
  { intros m'. unfold Unregister. cbn [mgrRegistry set_registry].
    by rewrite list_elem_of_filter. }
  split_and!; try done.
  intros m' l. rewrite !elem_of_layers_of, Hreg.
  change (getValues m' t (Unregister m w)) with (getValues m' t w).
  change (heap (Unregister m w)) with (heap w). tauto.
Qed.

(** The calls only add to the trace. *)
Lemma WrapWithGLS_enter_trace goID w : trace (WrapWithGLS_enter goID w).1 = trace w.
Proof.
  unfold WrapWithGLS_enter.
  set (w1 := if uint32 (curMaxGoroutineCount w) <=? goID then extend goID w else w).
  assert (Hw1 : trace w1 = trace w).
  { unfold w1. destruct (uint32 (curMaxGoroutineCount w) <=? goID); [|done].
    apply extend_other_fields. }
  by destruct (globalMaps w1 !! Z.to_nat goID).
Qed.

Lemma Set_trace key value t w : trace (Set_ key value t w).2 = trace w.
Proof. unfold Set_. by destruct (getGLS t w) as [[[c|] [|]]|]. Qed.

Lemma exec_trace (cs : list cmd) t w : ∃ evs, trace (exec cs t w).1 = trace w ++ evs.
Proof.
  refine (exec_keeps (λ w', ∃ evs, trace w' = trace w ++ evs) _ _ _ _ _ _ _ cs t w _).
  - by intros p w' H.
  - intros m gid new_values w' H.
    by rewrite (proj1 (proj2 (proj2 (proj2 (SetValues_enter_array m gid new_values w'))))).
  - intros m gid fr w' H.
    by rewrite (proj1 (proj2 (proj2 (SetValues_exit_array m gid fr w')))).
  - intros goID w' H. by rewrite WrapWithGLS_enter_trace.
  - intros key value t' w' H. by rewrite Set_trace.
  - intros e w' [evs H]. exists (evs ++ [e]). cbn [emit trace]. by rewrite H, app_assoc.
  - by intros calls t' w' H.
  - exists []. by rewrite app_nil_r.
Qed.

Lemma layer_binding_notin ls h m key base :
  m ∉ ls.*1 → layer_binding ls h m key base = base.
Proof.
  induction ls as [|[m' l] ls IH]; [done|]. cbn [fmap list_fmap fst layer_binding].
  intros [Hne Hin]%not_elem_of_cons. rewrite decide_False by done. by apply IH.
Qed.

Lemma layer_binding_in ls h m l key base :
  NoDup ls.*1 → (m, l) ∈ ls → layer_binding ls h m key base = deref h l !! key.
Proof.
  induction ls as [|[m' l'] ls IH]; [by intros _ []%elem_of_nil|].
  cbn [fmap list_fmap fst layer_binding].
  intros [Hnotin Hnd]%list.NoDup_cons [[= -> ->]|Hin]%elem_of_cons.
  - by rewrite decide_True.
  - rewrite decide_False; [by apply IH|]. intros ->. apply Hnotin.
    apply list_elem_of_fmap. by exists (m, l).
Qed.

Lemma layer_binding_ext ls h h' m key base base' :
  (∀ m' l, (m', l) ∈ ls → deref h' l = deref h l) → base' = base →
  layer_binding ls h' m key base' = layer_binding ls h m key base.
Proof.
  intros Hext ->. induction ls as [|[m' l] ls IH]; [done|]. cbn [layer_binding].
  rewrite (Hext m' l) by by left. rewrite IH; [done|].
  intros m'' l'' Hin. apply (Hext m''). by right.
Qed.

(** The closure of [Go] under an identity that has no slot yet: the first
    lookup of the function given to [Go] finds the binding of the map of
    the layer of its manager. *)
Lemma run_layers_sees m key (rest : list cmd) ls :
  ∀ gid w,
    wf w → NoDup ls.*1 →
    (∀ m' l, (m', l) ∈ ls →
       mgr_values w !! (m', gid) = None ∧ (l < next_loc w)%nat ∧
       size (deref (heap w) l) ≠ 0%nat) →
    ∃ evs,
      trace (run_layers ls (exec (CGetValue m key :: rest)) (Some gid) w).1
      = trace w ++
        EvGetValue m key
          (found_value (layer_binding ls (heap w) m key
                          (lookup_value m key (Some gid) w))).1
          (found_value (layer_binding ls (heap w) m key
                          (lookup_value m key (Some gid) w))).2 :: evs.
Proof.
  induction ls as [|[m1 l1] ls IH]; intros gid w Hwf Hnd Hls.
  - cbn [run_layers layer_binding exec exec_cmd]. rewrite GetValue_lookup.
    destruct (found_value (lookup_value m key (Some gid) w)) as [v ok]. cbn [seq_outcome].
    destruct (exec_trace rest (Some gid) (emit (EvGetValue m key v ok) w)) as [evs ->].
    exists evs. cbn [emit trace fst snd]. by rewrite <- app_assoc.
  - cbn [fmap list_fmap fst] in Hnd. apply list.NoDup_cons in Hnd as [Hnotin Hnd].
    destruct (Hls m1 l1) as (Hnone & Hl1 & Hsize); [by left|].
    cbn [run_layers]. unfold SetValues.
    destruct (size (deref (heap w) l1) =? 0)%nat eqn:Hz; [by apply Nat.eqb_eq in Hz|].
    unfold EnsureGoroutineId. cbn [GetGoroutineId].
    pose proof (SetValues_enter_wf m1 gid (deref (heap w) l1) w Hwf) as Hwf1.
    pose proof (SetValues_enter_lookup m1 gid (deref (heap w) l1) w m key Hwf) as Hlook.
    destruct (SetValues_enter_array m1 gid (deref (heap w) l1) w)
      as (_ & _ & _ & Htr & _).
    destruct (SetValues_enter_fresh m1 gid (deref (heap w) l1) w Hnone)
      as (mv & h' & Henter & Hother & _).
    destruct (SetValues_enter m1 gid (deref (heap w) l1) w) as [fr w1].
    injection Henter as -> ->. cbn [snd] in *.
    set (w1 := set_heap h' _) in *.
    destruct (IH gid w1) as [evs Hevs]; [done|done| |].
    { intros m' l Hin. destruct (Hls m' l) as (Hn' & Hl' & Hs'); [by right|].
      split_and!.
      - unfold w1. cbn [set_heap set_mgr_values mgr_values make_map snd].
        rewrite lookup_insert_ne; [done|]. intros [= ->]. apply Hnotin.
        apply list_elem_of_fmap. by exists (m', l).
      - unfold w1. cbn [set_heap set_mgr_values next_loc make_map snd]. lia.
      - unfold w1. cbn [set_heap heap]. rewrite Hother; [done|lia]. }
    destruct (run_layers ls (exec (CGetValue m key :: rest)) (Some gid) w1)
      as [w2 o] eqn:Hrun.
    cbn [fst] in *. exists evs.
    rewrite (proj1 (proj2 (proj2 (SetValues_exit_array m1 gid _ w2)))).
    rewrite Hevs, Htr. do 3 f_equal.
    all: cbn [layer_binding].
    all: destruct (decide (m1 = m)) as [->|Hne].
    all: try (rewrite layer_binding_notin
                by (intros Hin; apply Hnotin; exact Hin)).
    all: try (rewrite (layer_binding_ext ls (heap w) (heap w1) m key
                         (lookup_value m key (Some gid) w)
                         (lookup_value m key (Some gid) w1));
              [done| |done]).
    all: try (intros m' l Hin; destruct (Hls m' l) as (_ & Hl' & _); [by right|];
              unfold w1; cbn [set_heap heap]; apply Hother; lia).
    all: rewrite Hlook; unfold lookup_value; rewrite Hnone;
      by destruct (deref (heap w) l1 !! key).
Qed.

Lemma SetValues_no_identity m new_values (cb : callback) w :
  size new_values ≠ 0%nat →
  trace (SetValues m new_values cb None w).1
  = trace (SetValues m new_values cb (Some (Acquire (pool w)).1)
             (set_pool (Acquire (pool w)).2 w)).1.
Proof.
  intros Hsize. unfold SetValues.
  destruct (size new_values =? 0)%nat eqn:Hz; [by apply Nat.eqb_eq in Hz|].
  unfold EnsureGoroutineId. cbn [GetGoroutineId].
  destruct (Acquire (pool w)) as [gid p]. cbn [fst snd].
  destruct (SetValues_enter m gid new_values (set_pool p w)) as [fr w1].
  by destruct (cb (Some gid) w1) as [w2 o].
Qed.

(** X17. A goroutine started by [Go] that runs before anything else
    happens sees the bindings of the task that started it: the first
    lookup of the function given to [Go], for any key of any registered
    manager, gives what [GetValue] gave the starting task at the call of
    [Go]. The identity the pool hands to the goroutine must have no slot in
    any manager. *)
Theorem Go_propagates_bindings m key (rest : list cmd) t w :
  wf w → NoDup (mgrRegistry w) → m ∈ mgrRegistry w →
  (∀ m', mgr_values w !! (m', (Acquire (pool w)).1) = None) →
  ∃ evs,
    trace (run_goroutine (mkGoroutine (layers_of t w) (CGetValue m key :: rest))
             (Go (CGetValue m key :: rest) t w)).1
    = trace w ++
      EvGetValue m key (GetValue m key t w).1 (GetValue m key t w).2 :: evs.
Proof.
  intros Hwf Hnd Hm Hfree. unfold run_goroutine. cbn [wrappers body].
  set (W := Go (CGetValue m key :: rest) t w).
  assert (Hnone : (∀ l, (m, l) ∉ layers_of t w) → lookup_value m key t w = None).
  { intros Hno. unfold lookup_value. destruct t as [gid|]; [|done].
    destruct (mgr_values w !! (m, gid)) as [l|] eqn:Hl; [|done].
    destruct (decide (size (deref (heap w) l) = 0%nat)) as [Hz|Hnz].
    - apply map_size_empty_iff in Hz. by rewrite Hz.
    - destruct (Hno l). by apply elem_of_layers_of. }
  destruct (layers_of t w) as [|[m1 l1] ls] eqn:Hlayers.
  - cbn [run_layers exec exec_cmd]. rewrite !GetValue_lookup.
    rewrite Hnone by (intros l; apply not_elem_of_nil). cbn [lookup_value found_value].
    cbn [seq_outcome fst snd].
    destruct (exec_trace rest None (emit (EvGetValue m key INil false) W)) as [evs ->].
    exists evs. cbn [emit trace]. by rewrite <- app_assoc.
  - assert (Hchar : ∀ m' l, (m', l) ∈ (m1, l1) :: ls →
              getValues m' t w = Some l ∧ size (deref (heap w) l) ≠ 0%nat).
    { intros m' l Hin. rewrite <- Hlayers in Hin.
      by apply elem_of_layers_of in Hin as (_ & ? & ?). }
    assert (Hnd' : NoDup ((m1, l1) :: ls).*1).
    { rewrite <- Hlayers. unfold layers_of. apply NoDup_layers; [done|constructor|].
      intros ? _. apply not_elem_of_nil. }
    destruct (Hchar m1 l1) as [_ Hsize1]; [by left|].
    cbn [run_layers]. rewrite SetValues_no_identity by done.
    change (pool W) with (pool w).
    set (gid := (Acquire (pool w)).1). set (p := (Acquire (pool w)).2).
    destruct (run_layers_sees m key rest ((m1, l1) :: ls) gid (set_pool p W))
      as [evs Hevs]; [done|done| |].
    { intros m' l Hin. destruct (Hchar m' l Hin) as [Hg Hs]. split_and!; [apply Hfree| |done].
      unfold getValues in Hg. destruct t as [g|]; [|done]. cbn [GetGoroutineId] in Hg.
      destruct Hwf as (H1 & _). by apply H1 in Hg. }
    exists evs. cbn [run_layers] in Hevs.
    change (heap (set_pool p W)) with (heap w) in Hevs.
    change (heap W) with (heap w). rewrite Hevs.
    change (trace (set_pool p W)) with (trace w). do 3 f_equal.
    all: rewrite GetValue_lookup; do 2 f_equal.
    all: destruct (decide (m ∈ ((m1, l1) :: ls).*1)) as [Hin|Hnotin].
    all: try (apply list_elem_of_fmap in Hin as [[m' l] [Heq Hin]]; cbn [fst] in Heq;
              subst m'; rewrite (layer_binding_in _ _ m l) by done;
              destruct (Hchar m l Hin) as [Hg _]; unfold getValues in Hg;
              destruct t as [g|]; [|done]; cbn [GetGoroutineId] in Hg;
              unfold lookup_value; by rewrite Hg).
    all: rewrite layer_binding_notin by done.
    all: rewrite Hnone;
      [unfold lookup_value; change (mgr_values (set_pool p W)) with (mgr_values w);
       by rewrite Hfree|].
    all: intros l Hin; apply Hnotin; apply list_elem_of_fmap; by exists (m, l).
Qed.

Lemma Go_propagates_bindings_witness :
  ∃ evs,
    trace (run_goroutine
             (mkGoroutine
                (layers_of (Some 5)
                   (callback_world 0 {[IStr "K" := IStr "a"]} (Some 5) one_manager))
                (CGetValue 0 (IStr "K") :: []))
             (Go (CGetValue 0 (IStr "K") :: []) (Some 5)
                (callback_world 0 {[IStr "K" := IStr "a"]} (Some 5) one_manager))).1
    = trace (callback_world 0 {[IStr "K" := IStr "a"]} (Some 5) one_manager) ++
      EvGetValue 0 (IStr "K")
        (GetValue 0 (IStr "K") (Some 5)
           (callback_world 0 {[IStr "K" := IStr "a"]} (Some 5) one_manager)).1
        (GetValue 0 (IStr "K") (Some 5)
           (callback_world 0 {[IStr "K" := IStr "a"]} (Some 5) one_manager)).2 :: evs.
Proof.
  apply (Go_propagates_bindings 0 (IStr "K") [] (Some 5)
           (callback_world 0 {[IStr "K" := IStr "a"]} (Some 5) one_manager)).
  - apply SetValues_enter_wf, wf_one_manager.
  - vm_compute. apply list.NoDup_cons. split; [apply not_elem_of_nil|apply NoDup_nil_2].
  - vm_compute. by left.
  - intros m'.
    replace (mgr_values (callback_world 0 {[IStr "K" := IStr "a"]} (Some 5) one_manager))
      with (<[(0%nat, 5) := 0%nat]> (∅ : gmap (mgr * Z) loc)) by (by vm_compute).
    replace (Acquire (pool (callback_world 0 {[IStr "K" := IStr "a"]} (Some 5) one_manager))).1
      with 0 by (by vm_compute).
    rewrite lookup_insert_ne; [done|]. intros [=].
Defined.

End Propagation.

(** ** [WrapWithGLS] of several tasks at the same time *)

Section SharedArray.

Lemma elements_length μ :
  slice_ok μ →
  length (Shared.elements (Shared.globalMaps μ) μ) = Shared.len (Shared.globalMaps μ).
Proof. intros [Hlen Hcap]. unfold Shared.elements. rewrite length_take. lia. Qed.

Lemma append_nil_abstracts (growslice : nat → nat → nat) n c μ w :
  abstracts μ w →
  abstracts
    (Shared.set_lock false
       (Shared.set_globalMaps
          (Shared.append_nil growslice (Shared.globalMaps μ) n (Shared.set_lock true μ)).1 c
          (Shared.append_nil growslice (Shared.globalMaps μ) n (Shared.set_lock true μ)).2))
    (set_globalMaps c (globalMaps w ++ replicate n None) w).
Proof.
  intros (Hel & Hcur & Hmaps & Hnext & Hlock & Hlen & Hcap).
  unfold Shared.append_nil. cbn [Shared.arrays Shared.set_lock Shared.next_array].
  set (s := Shared.globalMaps μ) in *. set (a := Shared.arrays μ !!! Shared.ptr s) in *.
  assert (Htake : length (take (Shared.len s) a) = Shared.len s).
  { rewrite length_take. lia. }
  destruct (Shared.len s + n <=? Shared.cap s)%nat eqn:Hroom.
  - apply Nat.leb_le in Hroom. unfold abstracts, slice_ok, Shared.elements. simpl.
    rewrite lookup_total_insert_eq. split_and!; try done.
    + rewrite app_assoc. rewrite take_app_length'.
      * by rewrite <- Hel.
      * rewrite length_app, length_replicate. lia.
    + rewrite !length_app, length_replicate, length_drop. lia.
  - apply Nat.leb_gt in Hroom. unfold abstracts, slice_ok, Shared.elements. simpl.
    rewrite lookup_total_insert_eq. split_and!; try done.
    + rewrite take_app_ge by lia. rewrite Htake, take_replicate.
      rewrite <- Hel. unfold Shared.elements. do 2 f_equal. lia.
    + lia.
    + rewrite length_app, length_replicate. lia.
Qed.

Lemma reset_abstracts goID μ w old :
  abstracts μ w →
  globalMaps w !! Z.to_nat goID = Some old →
  ∃ μ', (∀ growslice n, Shared.steps_alone growslice (S (S n)) goID Shared.AtReset μ
                        = (Shared.AtCall, μ')) ∧
        abstracts μ'
          (set_globalMaps (curMaxGoroutineCount w)
             (<[Z.to_nat goID := Some (next_loc w)]> (globalMaps w)) (make_map w).2).
Proof.
  intros (Hel & Hcur & Hmaps & Hnext & Hlock & Hlen & Hcap) Hold.
  assert (Hi : (Z.to_nat goID < Shared.len (Shared.globalMaps μ))%nat).
  { apply lookup_lt_Some in Hold. rewrite <- Hel in Hold.
    rewrite elements_length in Hold; done. }
  eexists. split.
  - intros growslice n. cbn [Shared.steps_alone Shared.step].
    apply Nat.ltb_lt in Hi. rewrite Hi. by destruct n.
  - unfold abstracts, slice_ok, Shared.elements, Shared.set_arrays. simpl.
    rewrite lookup_total_insert_eq. split_and!; try done.
    + rewrite take_insert_lt by done. by rewrite Hnext, <- Hel.
    + by rewrite Hmaps, Hnext.
    + by rewrite Hnext.
    + by rewrite length_insert.
Qed.

(** X11. When a task takes the steps of [WrapWithGLS] up to the call of
    [f] with no step of another task in between, they do what
    [WrapWithGLS_enter] does: the array that [globalMaps] refers to has
    room for the index of the task and holds there a new, empty map,
    whatever an earlier holder of the identity left, and [Get] returns
    nil for every key. *)
Theorem WrapWithGLS_alone_resets_slot (growslice : nat → nat → nat) goID μ w :
  abstracts μ w → is_uint32 goID → gls_ok w →
  ∃ μ',
    Shared.alone growslice goID μ = (Shared.AtCall, μ') ∧
    (WrapWithGLS_enter goID w).2 = Normal ∧
    abstracts μ' (WrapWithGLS_enter goID w).1 ∧
    (∃ c, Shared.getGLS (Some goID) μ' = Returned (Some c, ENil) ∧
          deref (Shared.maps μ') c = ∅) ∧
    ∀ key, Shared.Get key (Some goID) μ' = Returned (INil, ENil).
Proof.
  intros Habs Hg Hgls.
  destruct (WrapWithGLS_enter_fresh goID w Hg Hgls) as (w1 & Henter & Hslot & Hempty & _).
  rewrite Henter. cbn [fst snd].
  assert (Hw1 : ∃ w0 old,
            w0 = (if uint32 (curMaxGoroutineCount w) <=? goID then extend goID w else w) ∧
            globalMaps w0 !! Z.to_nat goID = Some old ∧
            w1 = set_globalMaps (curMaxGoroutineCount w0)
                   (<[Z.to_nat goID := Some (next_loc w0)]> (globalMaps w0))
                   (make_map w0).2).
  { unfold WrapWithGLS_enter in Henter. eexists. 
    destruct (globalMaps _ !! Z.to_nat goID) as [old|] eqn:Hold in Henter; [|done].
    exists old. split; [reflexivity|]. split; [exact Hold|].
    unfold make_map in Henter. by injection Henter as <-. }
  destruct Hw1 as (w0 & old & Hw0 & Hold & ->).
  assert (H0 : ∃ μ0 n, Shared.alone growslice goID μ
                       = Shared.steps_alone growslice (S (S n)) goID Shared.AtReset μ0 ∧
                       abstracts μ0 w0).
  { pose proof Habs as (Hel & Hcur & Hmaps & Hnext & Hlock & Hok).
    unfold Shared.alone.
    change (Shared.steps_alone growslice 5 goID Shared.AtCheck μ)
      with (match Shared.step growslice goID Shared.AtCheck μ with
            | Some (p', μ') => Shared.steps_alone growslice 4 goID p' μ'
            | None => (Shared.AtCheck, μ)
            end).
    cbn [Shared.step]. rewrite Hlock, Hcur.
    destruct (uint32 (curMaxGoroutineCount w) <=? goID) eqn:Hif.
    - change (Shared.steps_alone growslice 4 goID Shared.AtExtend μ)
        with (match Shared.step growslice goID Shared.AtExtend μ with
              | Some (p', μ') => Shared.steps_alone growslice 3 goID p' μ'
              | None => (Shared.AtExtend, μ)
              end).
      cbn [Shared.step]. rewrite Hlock, Hcur, Hif.
      set (unit := uint32 (uint32 (uint32 (goID - uint32 (curMaxGoroutineCount w))
                                   / extendUnit + 1) * extendUnit)).
      pose proof (append_nil_abstracts growslice (Z.to_nat unit)
                    (curMaxGoroutineCount w + unit) μ w Habs) as Habs1.
      destruct (Shared.append_nil growslice (Shared.globalMaps μ) (Z.to_nat unit)
                  (Shared.set_lock true μ)) as [s μ1] eqn:Happ.
      cbn [fst snd] in Habs1.
      assert (Hcur1 : Shared.curMaxGoroutineCount μ1 = curMaxGoroutineCount w).
      { revert Happ. unfold Shared.append_nil.
        destruct (_ <=? _)%nat; intros [= _ <-]; done. }
      change (Shared.steps_alone growslice 3 goID (Shared.AtPublish s unit) μ1)
        with (Shared.steps_alone growslice 2 goID Shared.AtReset
                (Shared.set_lock false
                   (Shared.set_globalMaps s (Shared.curMaxGoroutineCount μ1 + unit) μ1))).
      rewrite Hcur1. eexists _, 0%nat. split; [reflexivity|].
      rewrite Hw0. unfold extend. by rewrite Hif.
    - exists μ, 2%nat. split; [reflexivity|]. by rewrite Hw0. }
  destruct H0 as (μ0 & n & Halone0 & Habs0).
  assert (Hμ : ∃ μ', Shared.alone growslice goID μ = (Shared.AtCall, μ') ∧
                     abstracts μ'
                       (set_globalMaps (curMaxGoroutineCount w0)
                          (<[Z.to_nat goID := Some (next_loc w0)]> (globalMaps w0))
                          (make_map w0).2)).
  { destruct (reset_abstracts goID μ0 w0 old Habs0 Hold) as (μ' & Hsteps & Habs').
    exists μ'. split; [|done]. rewrite Halone0. apply Hsteps. }
  destruct Hμ as (μ' & Halone & Habs').
  exists μ'. pose proof Habs' as (Hel & _ & Hmaps & _).
  assert (HgetGLS : Shared.getGLS (Some goID) μ' = Returned (Some (next_loc w), ENil)).
  { unfold Shared.getGLS, GetGoroutineId. by rewrite Hel, Hslot. }
  split_and!; try done.
  - exists (next_loc w). by rewrite Hmaps.
  - intros key. unfold Shared.Get. by rewrite HgetGLS, Hmaps, Hempty, lookup_empty.
Qed.

(** The task takes over the identity 0 and the slot with [k = 2]. *)
Lemma WrapWithGLS_alone_resets_slot_witness :
  ∃ μ',
    Shared.alone (λ c _, 2 * c)%nat 0 Shared.residue = (Shared.AtCall, μ') ∧
    (WrapWithGLS_enter 0 slot_in_use).2 = Normal ∧
    abstracts μ' (WrapWithGLS_enter 0 slot_in_use).1 ∧
    (∃ c, Shared.getGLS (Some 0) μ' = Returned (Some c, ENil) ∧
          deref (Shared.maps μ') c = ∅) ∧
    ∀ key, Shared.Get key (Some 0) μ' = Returned (INil, ENil).
Proof.
  apply (WrapWithGLS_alone_resets_slot (λ c _, 2 * c)%nat 0 Shared.residue slot_in_use).
  - split_and!; by vm_compute.
  - by vm_compute.
  - split_and!; by vm_compute.
Defined.

(** C8. The claim fails when another task extends the array at the same
    time. A task that left [k = 2] in slot 0 has released the identity 0.
    Task A takes it from the pool and task B gets the fresh identity 1024,
    and both call [WrapWithGLS]. A passes the capacity test; B tests,
    enters [extend], and [append] copies the array, slot 0 with the map of
    the earlier holder; A stores its new map into the old array; B assigns
    the copy to [globalMaps]. When A calls [f], [Get("k")] reads slot 0 of
    the copy and returns the 2 of the earlier holder. When A takes its
    three steps before B starts, [Get("k")] returns nil. *)
Theorem WrapWithGLS_reset_lost_to_extend (growslice : nat → nat → nat) :
  (Acquire {| queue := [0]; curID := 1024 |}).1 = 0 ∧
  (Acquire (Acquire {| queue := [0]; curID := 1024 |}).2).1 = 1024 ∧
  (∃ σ, Shared.run_schedule growslice [0; 1; 1; 0; 0; 1]%nat
          (Shared.mkState [(0, Shared.AtCheck); (1024, Shared.AtCheck)] Shared.residue)
        = Some σ ∧
        Shared.tasks σ !! 0%nat = Some (0, Shared.AtCall) ∧
        Shared.Get "k" (Some 0) (Shared.shared σ) = Returned (IInt 2, ENil)) ∧
  (∃ σ, Shared.run_schedule growslice [0; 0; 0; 1; 1; 1]%nat
          (Shared.mkState [(0, Shared.AtCheck); (1024, Shared.AtCheck)] Shared.residue)
        = Some σ ∧
        Shared.tasks σ !! 0%nat = Some (0, Shared.AtCall) ∧
        Shared.Get "k" (Some 0) (Shared.shared σ) = Returned (INil, ENil)).
Proof.
  split_and!; [done|done| |].
  - eexists. split; [vm_compute; reflexivity|]. split; vm_compute; reflexivity.
  - eexists. split; [vm_compute; reflexivity|]. split; vm_compute; reflexivity.
Qed.

End SharedArray.
